(** * BatchSched: the scheduling engine (scheduler.js) and the simulation
    driver (simulation.js), as a shallow embedding.

    Conventions of the model.
    - A JavaScript number is an exact rational ([Q]) where the code accepts
      any number (the arguments of [addJob], the day, the entries of a compute
      history) and an integer ([Z]) where the code has made it one
      ([Math.round], [Math.floor], the id counter, loop bounds).  NaN, the
      infinities, the rounding of IEEE-754 arithmetic and the saturation of
      the counter at 2^53 are outside that part of the model.
    - Where the value of a result depends on the rounding of doubles, the
      function is modelled on binary64 floats as well:
      [calculateLoadVariance_double] is [calculateLoadVariance] with every
      operation rounding, and what is proved about the number it returns is
      proved about that one.  Sums of computes are stated for non-negative
      integers of total at most 2^53, which doubles add exactly.
    - The module-level variables [jobPool], [jobIdCounter] and
      [_computeHistory] are the fields of an explicit [State]; functions that
      read or write them, draw random numbers or throw live in the monad [M].
    - [Math.random()] reads the next entry of an arbitrary sequence
      [rnd : nat -> Q]; the state counts the draws made so far.
    - Every argument is explicit: where the code has a default value
      ([today = 1], [strategy = 'edf'], [maxOffset = 7], [maxCompute = 20],
      [incomingCount = 5]) the caller passes it. *)

From Stdlib Require Import Floats.PrimFloat Floats.SpecFloat Floats.FloatOps.
From Stdlib Require Import ZArith QArith Qround Lia.
From stdpp Require Import gmap strings list fin_maps sorting.

Local Open Scope Z_scope.

(** ** Numbers *)

(** [a < b] on numbers, as a boolean. *)
Definition Qlt_bool (x y : Q) : bool := negb (Qle_bool y x).

(** [Math.floor]. *)
Definition Math_floor (x : Q) : Z := Qfloor x.

(** [Math.round]: the nearest integer, a tie going up. *)
Definition Math_round (x : Q) : Z := Qfloor (x + (1 # 2))%Q.

(** [Math.pow(x, 2)], the only exponent the code uses. *)
Definition Math_pow2 (x : Q) : Q := (x ^ 2)%Q.

(** ** Data *)

Module Job.
Record t : Type := mk {
  id : Z;
  compute : Z;
  deadline : Z;
  addedDay : Q
}.
End Job.

(** The return value of [removeExpiredJobs]. *)
Module Expiry.
Record t : Type := mk {
  remaining : list Job.t;
  expired : list Job.t
}.
End Expiry.

(** The object returned by [runScheduler]. *)
Record DayResult : Type := mkDayResult {
  selected : list Job.t;
  remaining : list Job.t;
  expired : list Job.t;
  totalCompute : Z;
  backlogSize : Z;
  variance : Q;
  day : Q;
  strategy : string
}.

(** The object returned by [simulateDay]: [{ ...result, incoming }]. *)
Record SimResult : Type := mkSimResult {
  result : DayResult;
  incoming : list Job.t
}.

(** The module-level variables of scheduler.js and simulation.js, and the
    number of [Math.random()] calls made so far. *)
Record State : Type := mkState {
  jobPool : list Job.t;
  jobIdCounter : Z;
  _computeHistory : list Q;
  drawn : nat
}.

(** ** Exceptions and the monad *)

Inductive JsError : Type := Error (message : string).

Inductive Outcome (A : Type) : Type :=
| Return (a : A)
| Throw (e : JsError).
Arguments Return {A} a.
Arguments Throw {A} e.

Definition M (A : Type) : Type := State -> Outcome A * State.

Definition ret {A} (a : A) : M A := fun st => (Return a, st).

Definition throw {A} (e : JsError) : M A := fun st => (Throw e, st).

(** Sequencing: an exception skips the rest, the writes made before it stay. *)
Definition bind {A B} (m : M A) (k : A -> M B) : M B :=
  fun st =>
    match m st with
    | (Return a, st') => k a st'
    | (Throw e, st') => (Throw e, st')
    end.

(** [try { m } catch (e) { h e }]. *)
Definition try_catch {A} (m : M A) (h : JsError -> M A) : M A :=
  fun st =>
    match m st with
    | (Return a, st') => (Return a, st')
    | (Throw e, st') => h e st'
    end.

Definition get : M State := fun st => (Return st, st).

Definition put (st' : State) : M unit := fun _ => (Return tt, st').

Declare Scope js_scope.
Delimit Scope js_scope with js.
Notation "'let!' x ':=' m 'in' k" := (bind m (fun x => k))
  (at level 10, x name, m at level 100, k at level 200) : js_scope.
Notation "m ';;' k" := (bind m (fun _ => k))
  (at level 100, k at level 200, right associativity) : js_scope.
Local Open Scope js_scope.

Definition set_jobPool (p : list Job.t) : M unit :=
  fun st => (Return tt, mkState p (jobIdCounter st) (_computeHistory st) (drawn st)).

Definition set_jobIdCounter (c : Z) : M unit :=
  fun st => (Return tt, mkState (jobPool st) c (_computeHistory st) (drawn st)).

Definition set_computeHistory (h : list Q) : M unit :=
  fun st => (Return tt, mkState (jobPool st) (jobIdCounter st) h (drawn st)).

(** The double quote character, for the message of [sortJobs]. *)
Definition dquote : string := String (Ascii.ascii_of_nat 34) EmptyString.

(** ** scheduler.js: the job pool *)

(** [resetJobPool()]. *)
Definition resetJobPool : M unit :=
  set_jobPool [] ;; set_jobIdCounter 1.

(** [getJobPool()]: a copy of the pool. *)
Definition getJobPool : M (list Job.t) :=
  let! st := get in ret (jobPool st).

(** [addJob(compute, deadline, today)]: both tests are made on the arguments
    as given, before [Math.round]; [jobIdCounter++] then [jobPool.push]. *)
Definition addJob (compute deadline today : Q) : M Job.t :=
  if Qle_bool compute 0 then throw (Error "Compute units must be positive.")
  else if Qlt_bool deadline today then throw (Error "Deadline cannot be in the past.")
  else
    let! st := get in
    let job := Job.mk (jobIdCounter st) (Math_round compute) (Math_round deadline) today in
    set_jobIdCounter (jobIdCounter st + 1) ;;
    let! st1 := get in
    set_jobPool (jobPool st1 ++ [job]) ;;
    ret job.

(** [j.deadline < today] and [j.deadline >= today]. *)
Definition is_expired (today : Q) (j : Job.t) : bool :=
  Qlt_bool (inject_Z (Job.deadline j)) today.

Definition is_live (today : Q) (j : Job.t) : bool :=
  Qle_bool today (inject_Z (Job.deadline j)).

(** [removeExpiredJobs(today)]. *)
Definition removeExpiredJobs (today : Q) : M Expiry.t :=
  let! st := get in
  let expired := List.filter (is_expired today) (jobPool st) in
  set_jobPool (List.filter (is_live today) (jobPool st)) ;;
  let! st1 := get in
  ret (Expiry.mk (jobPool st1) expired).

(** ** scheduler.js: sorting, selection, metrics *)

(** [Array.prototype.sort(cmp)]: ECMAScript requires a stable sort, and for a
    consistent comparator the stable sorted arrangement is unique; it is
    computed here by stable insertion ([x] goes before the first [y] with
    [cmp x y <= 0]). *)
Fixpoint sort_insert {A} (cmp : A -> A -> Z) (x : A) (l : list A) : list A :=
  match l with
  | [] => [x]
  | y :: l' => if cmp x y <=? 0 then x :: y :: l' else y :: sort_insert cmp x l'
  end.

Definition Array_sort {A} (cmp : A -> A -> Z) (l : list A) : list A :=
  fold_right (sort_insert cmp) [] l.

(** The comparator of ['edf']. *)
Definition edf_compare (a b : Job.t) : Z :=
  if negb (Job.deadline a =? Job.deadline b) then Job.deadline a - Job.deadline b
  else Job.compute a - Job.compute b.

(** The comparator of ['lcf']. *)
Definition lcf_compare (a b : Job.t) : Z :=
  if negb (Job.compute b =? Job.compute a) then Job.compute b - Job.compute a
  else Job.deadline a - Job.deadline b.

(** [[copy[i], copy[j]] = [copy[j], copy[i]]] for indices inside the array
    (the shuffle never leaves it, see [shuffle_index_in_range]). *)
Definition swap (copy : list Job.t) (i j : nat) : list Job.t :=
  match copy !! i, copy !! j with
  | Some a, Some b => <[i:=b]> (<[j:=a]> copy)
  | _, _ => copy
  end.

(** [selectJobs(sortedJobs, N)]: [slice(0, Math.max(0, N))]. *)
Definition selectJobs (sortedJobs : list Job.t) (N : Z) : list Job.t :=
  take (Z.to_nat (Z.max 0 N)) sortedJobs.

(** [new Set(selected.map(j => j.id))]. *)
Definition id_set (selected : list Job.t) : gset Z :=
  list_to_set (map Job.id selected).

(** [all.filter(j => !selectedIds.has(j.id))]. *)
Definition without_ids (selectedIds : gset Z) (all : list Job.t) : list Job.t :=
  List.filter (fun j => negb (bool_decide (Job.id j ∈ selectedIds))) all.

(** [getRemainingJobs(all, selected)]. *)
Definition getRemainingJobs (all selected : list Job.t) : list Job.t :=
  without_ids (id_set selected) all.

(** [calculateTotalCompute(jobs)]. *)
Definition calculateTotalCompute (jobs : list Job.t) : Z :=
  fold_left (fun acc j => acc + Job.compute j) jobs 0.

(** [calculateBacklog(jobs)]. *)
Definition calculateBacklog (jobs : list Job.t) : Z :=
  Z.of_nat (length jobs).

(** [calculateLoadVariance(history)] with every operation exact; the
    [variance] field of a round is modelled by it.  The function on the
    numbers of the machine is [calculateLoadVariance_double] below. *)
Definition calculateLoadVariance (history : list Q) : Q :=
  if (length history <? 2)%nat then 0%Q
  else
    let n := inject_Z (Z.of_nat (length history)) in
    let mean := (fold_left Qplus history 0 / n)%Q in
    let sqDiffs := map (fun v => Math_pow2 (v - mean)) history in
    (fold_left Qplus sqDiffs 0 / n)%Q.

Definition read_jobPool : M (list Job.t) :=
  let! st := get in ret (jobPool st).

Definition read_computeHistory : M (list Q) :=
  let! st := get in ret (_computeHistory st).

(** ** [calculateLoadVariance] on the numbers of the machine

    A JavaScript number is an IEEE-754 double: [+], [-], [*] and [/] round to
    the nearest double.  This is [calculateLoadVariance] on doubles, the
    operations being those of the kernel's binary64 floats. *)

(** [history.length] as a number: a count becomes the double of the same
    value (exactly, up to 2^53). *)
Fixpoint Number_of_nat (n : nat) : float :=
  match n with
  | O => 0%float
  | S n' => (Number_of_nat n' + 1)%float
  end.

(** [Math.pow(x, 2)]: ECMAScript leaves [Math.pow] to the implementation;
    the fdlibm [pow] that V8 ships returns [x * x] for the exponent 2. *)
Definition Math_pow2_double (x : float) : float := (x * x)%float.

(** [calculateLoadVariance(history)], in doubles. *)
Definition calculateLoadVariance_double (history : list float) : float :=
  if (length history <? 2)%nat then 0%float
  else
    let n := Number_of_nat (length history) in
    let mean := (fold_left PrimFloat.add history 0 / n)%float in
    let sqDiffs := map (fun v => Math_pow2_double (v - mean)) history in
    (fold_left PrimFloat.add sqDiffs 0 / n)%float.

(** [Σ_{i<k} lᵢ] in doubles: the terms are added to 0 in index order, each
    addition rounding. *)
Fixpoint double_partial_sum (l : list float) (k : nat) : float :=
  match k with
  | O => 0%float
  | S k' => (double_partial_sum l k' + List.nth k' l 0)%float
  end.

(** [mean = Σhᵢ/n] and [variance = Σ(hᵢ−mean)²/n] evaluated in doubles, the
    divisor being [n]. *)
Definition spec_mean_double (history : list float) : float :=
  (double_partial_sum history (length history) / Number_of_nat (length history))%float.

Definition spec_variance_double (history : list float) : float :=
  (double_partial_sum
     (map (fun h => (h - spec_mean_double history) * (h - spec_mean_double history))
        history)
     (length history)
   / Number_of_nat (length history))%float.

(** The rational a finite double stands for. *)
Definition double_value (x : float) : option Q :=
  match Prim2SF x with
  | S754_zero _ => Some 0%Q
  | S754_finite s m e =>
      Some ((if s then -1 else 1) * inject_Z (Z.pos m) * 2 ^ e)%Q
  | _ => None
  end.

(** ** C_With_Same_Algo/batchscheduler.c

    The C port of the same round.  A C [int] is an integer of the model; an
    array argument is the list of its cells, a write [a[k] = x] is an update
    of the list, and a cell read before it was written holds an arbitrary job.
    Indices passed to [merge] are natural numbers (a negative index or an
    array of non-positive size is undefined in C); [mergeSort] takes its
    bounds as integers, since the program calls it with [right = -1] on an
    empty array.  Signed overflow is undefined in C: the only sum the program
    makes of values it read, the total compute, returns no value in the model
    when it leaves the range of a 32-bit [int]. *)
Module CPort.

Record Job : Type := mk {
  id : Z;
  compute : Z;
  deadline : Z
}.

#[export] Instance Job_inhabited : Inhabited Job := populate (mk 0 0 0).

(** [for (i = 0; i < n; i++) dst[i] = src[from + i];], [n] iterations to go. *)
Fixpoint copy_in (n i : nat) (src : list Job) (from : nat) (dst : list Job)
    : list Job :=
  match n with
  | O => dst
  | S n' => copy_in n' (S i) src from (<[i := src !!! (from + i)%nat]> dst)
  end.

(** [while (i < n1 && j < n2) { ... }] of [merge]; returns [i], [j], [k] and
    the array. *)
Fixpoint merge_while (fuel : nat) (L R : list Job) (n1 n2 i j k : nat)
    (arr : list Job) : nat * nat * nat * list Job :=
  match fuel with
  | O => (i, j, k, arr)
  | S fuel' =>
      if (i <? n1)%nat && (j <? n2)%nat then
        if deadline (L !!! i) <? deadline (R !!! j) then
          merge_while fuel' L R n1 n2 (S i) j (S k) (<[k := L !!! i]> arr)
        else if deadline (L !!! i) >? deadline (R !!! j) then
          merge_while fuel' L R n1 n2 i (S j) (S k) (<[k := R !!! j]> arr)
        else if compute (L !!! i) <=? compute (R !!! j) then
          merge_while fuel' L R n1 n2 (S i) j (S k) (<[k := L !!! i]> arr)
        else
          merge_while fuel' L R n1 n2 i (S j) (S k) (<[k := R !!! j]> arr)
      else (i, j, k, arr)
  end.

(** [while (i < n) arr[k++] = src[i++];]; returns [k] and the array. *)
Fixpoint copy_out (fuel : nat) (src : list Job) (n i k : nat) (arr : list Job)
    : nat * list Job :=
  match fuel with
  | O => (k, arr)
  | S fuel' =>
      if (i <? n)%nat then copy_out fuel' src n (S i) (S k) (<[k := src !!! i]> arr)
      else (k, arr)
  end.

(** [merge(arr, left, mid, right)]; [L] and [R] are the two local arrays. *)
Definition merge (arr : list Job) (left mid right : nat) : list Job :=
  let n1 := (mid - left + 1)%nat in
  let n2 := (right - mid)%nat in
  let L := copy_in n1 0 arr left (replicate n1 inhabitant) in
  let R := copy_in n2 0 arr (mid + 1) (replicate n2 inhabitant) in
  let '(i, j, k, arr1) := merge_while (n1 + n2) L R n1 n2 0 0 left arr in
  let '(k2, arr2) := copy_out n1 L n1 i k arr1 in
  snd (copy_out n2 R n2 j k2 arr2).

(** [mergeSort(arr, left, right)], with the depth of the recursion bounded
    by [fuel]; [/] on [int] truncates. *)
Fixpoint mergeSort_rec (fuel : nat) (arr : list Job) (left right : Z) : list Job :=
  match fuel with
  | O => arr
  | S fuel' =>
      if left <? right then
        let mid := Z.quot (left + right) 2 in
        let arr1 := mergeSort_rec fuel' arr left mid in
        let arr2 := mergeSort_rec fuel' arr1 (mid + 1) right in
        merge arr2 (Z.to_nat left) (Z.to_nat mid) (Z.to_nat right)
      else arr
  end.

(** [mergeSort(arr, left, right)]: a range of [right - left + 1] cells needs
    no deeper recursion than its size (see [mergeSort_rec_fuel]). *)
Definition mergeSort (arr : list Job) (left right : Z) : list Job :=
  mergeSort_rec (Z.to_nat (right - left + 1)) arr left right.

(** The loop of the four-argument [removeExpiredJobs] (the one-day program),
    [n] iterations to go; returns [count] and [valid]. *)
Fixpoint removeExpiredJobs_loop (n i count : nat) (jobs : list Job) (today : Z)
    (valid : list Job) : nat * list Job :=
  match n with
  | O => (count, valid)
  | S n' =>
      if deadline (jobs !!! i) >=? today then
        removeExpiredJobs_loop n' (S i) (S count) jobs today
          (<[count := jobs !!! i]> valid)
      else removeExpiredJobs_loop n' (S i) count jobs today valid
  end.

(** [removeExpiredJobs(jobs, n, today, valid)]: the count returned and the
    array [valid] as written. *)
Definition removeExpiredJobs (jobs : list Job) (n today : Z) (valid : list Job)
    : Z * list Job :=
  let '(count, valid') := removeExpiredJobs_loop (Z.to_nat n) 0 0 jobs today valid in
  (Z.of_nat count, valid').

(** The loop of the three-argument [removeExpiredJobs] (the day-by-day
    program), which shifts the valid jobs forward inside [jobs]. *)
Fixpoint removeExpiredJobs_inplace_loop (n i count : nat) (jobs : list Job)
    (today : Z) : nat * list Job :=
  match n with
  | O => (count, jobs)
  | S n' =>
      if deadline (jobs !!! i) >=? today then
        removeExpiredJobs_inplace_loop n' (S i) (S count)
          (<[count := jobs !!! i]> jobs) today
      else removeExpiredJobs_inplace_loop n' (S i) count jobs today
  end.

(** [removeExpiredJobs(jobs, n, today)] of the day-by-day program. *)
Definition removeExpiredJobs_inplace (jobs : list Job) (n today : Z)
    : Z * list Job :=
  let '(count, jobs') := removeExpiredJobs_inplace_loop (Z.to_nat n) 0 0 jobs today in
  (Z.of_nat count, jobs').

(** [for (i = 0; i < n && count < N; i++) selected[count++] = jobs[i];]. *)
Fixpoint selectJobs_loop (fuel : nat) (jobs : list Job) (n N : Z) (i count : nat)
    (selected : list Job) : nat * list Job :=
  match fuel with
  | O => (count, selected)
  | S fuel' =>
      if (Z.of_nat i <? n) && (Z.of_nat count <? N) then
        selectJobs_loop fuel' jobs n N (S i) (S count)
          (<[count := jobs !!! i]> selected)
      else (count, selected)
  end.

(** [selectJobs(jobs, n, N, selected)]. *)
Definition selectJobs (jobs : list Job) (n N : Z) (selected : list Job)
    : Z * list Job :=
  let '(count, selected') := selectJobs_loop (Z.to_nat n) jobs n N 0 0 selected in
  (Z.of_nat count, selected').

(** The values of a 32-bit [int]. *)
Definition in_int (z : Z) : bool := (- 2 ^ 31 <=? z) && (z <? 2 ^ 31).

(** [for (i = 0; i < count; i++) total += selected[i].compute;]: no value
    once a sum leaves the range of [int]. *)
Fixpoint calculateTotalCompute_loop (n i : nat) (selected : list Job) (total : Z)
    : option Z :=
  match n with
  | O => Some total
  | S n' =>
      let total' := total + compute (selected !!! i) in
      if in_int total' then calculateTotalCompute_loop n' (S i) selected total'
      else None
  end.

(** [calculateTotalCompute(selected, count)]. *)
Definition calculateTotalCompute (selected : list Job) (count : Z) : option Z :=
  calculateTotalCompute_loop (Z.to_nat count) 0 selected 0.

(** The order of the merge: [a] may be written before [b]. *)
Definition before (a b : Job) : Prop :=
  deadline a < deadline b \/ (deadline a = deadline b /\ compute a <= compute b).

(** The test of the merge loop as one boolean: the left entry is written. *)
Definition left_first (a b : Job) : bool :=
  if deadline a <? deadline b then true
  else if deadline a >? deadline b then false
  else compute a <=? compute b.

(** The merge of two lists, entry by entry, by the test of the loop. *)
Fixpoint merged (l1 : list Job) : list Job -> list Job :=
  fix merged_r (l2 : list Job) : list Job :=
    match l1, l2 with
    | [], _ => l2
    | _, [] => l1
    | a :: l1', b :: l2' =>
        if left_first a b then a :: merged l1' l2 else b :: merged_r l2'
    end.

(** The cells [from .. from + n - 1] of an array. *)
Definition cells (arr : list Job) (from n : nat) : list Job :=
  take n (drop from arr).

End CPort.

Section Engine.

(** The values [Math.random()] returns, in the order of the calls. *)
Variable rnd : nat -> Q.

(** [Math.random()]. *)
Definition Math_random : M Q :=
  fun st =>
    (Return (rnd (drawn st)),
     mkState (jobPool st) (jobIdCounter st) (_computeHistory st) (S (drawn st))).

(** The loop of the ['random'] case: [for (let i = copy.length - 1; i > 0; i--)]. *)
Fixpoint shuffle_loop (i : nat) (copy : list Job.t) : M (list Job.t) :=
  match i with
  | O => ret copy
  | S i' =>
      let! r := Math_random in
      let j := Z.to_nat (Math_floor (r * inject_Z (Z.of_nat i + 1))) in
      shuffle_loop i' (swap copy i j)
  end.

(** [sortJobs(jobs, strategy)], on the contents of the arrays: [copy] is
    [jobs.slice()], every case works on [copy] and [copy] is returned. *)
Definition sortJobs (jobs : list Job.t) (strategy : string) : M (list Job.t) :=
  let copy := jobs in
  if String.eqb strategy "edf" then ret (Array_sort edf_compare copy)
  else if String.eqb strategy "lcf" then ret (Array_sort lcf_compare copy)
  else if String.eqb strategy "random" then shuffle_loop (length copy - 1) copy
  else throw (Error ("Unknown strategy: " +:+ dquote +:+ strategy +:+ dquote)).

(** [runScheduler(today, N, strategy, computeHistory)]. *)
Definition runScheduler (today : Q) (N : Z) (strategy : string)
    (computeHistory : list Q) : M DayResult :=
  let! e := removeExpiredJobs today in
  let expired := Expiry.expired e in
  let! pool := read_jobPool in
  let! sorted := sortJobs pool strategy in
  let selected := selectJobs sorted N in
  let selectedIds := id_set selected in
  let! pool1 := read_jobPool in
  set_jobPool (without_ids selectedIds pool1) ;;
  let totalCompute := calculateTotalCompute selected in
  let! pool2 := read_jobPool in
  let backlogSize := calculateBacklog pool2 in
  let updatedHistory := computeHistory ++ [inject_Z totalCompute] in
  let variance := calculateLoadVariance updatedHistory in
  ret (mkDayResult selected pool2 expired totalCompute backlogSize variance
         today strategy).

(** ** simulation.js *)

(** The body of the loop of [generateRandomJobs], [n] iterations to go. *)
Fixpoint generateRandomJobs_loop (n : nat) (today : Q) (maxOffset maxCompute : Z)
    (created : list Job.t) : M (list Job.t) :=
  match n with
  | O => ret created
  | S n' =>
      let! r1 := Math_random in
      let compute := Math_floor (r1 * inject_Z maxCompute) + 1 in
      let! r2 := Math_random in
      let deadlineOffset := Math_floor (r2 * inject_Z maxOffset) in
      let deadline := (today + inject_Z deadlineOffset)%Q in
      let! created' :=
        try_catch
          (let! job := addJob (inject_Z compute) deadline today in
           ret (created ++ [job]))
          (fun _ => ret created) in
      generateRandomJobs_loop n' today maxOffset maxCompute created'
  end.

(** [generateRandomJobs(count, today, maxOffset, maxCompute)]. *)
Definition generateRandomJobs (count : Z) (today : Q) (maxOffset maxCompute : Z)
    : M (list Job.t) :=
  generateRandomJobs_loop (Z.to_nat count) today maxOffset maxCompute [].

(** [simulateDay(today, N, strategy, incomingCount)]. *)
Definition simulateDay (today : Q) (N : Z) (strategy : string) (incomingCount : Z)
    : M SimResult :=
  let! r := Math_random in
  let randomCount := incomingCount + Math_floor (r * 4) - 1 in
  let! incoming := generateRandomJobs (Z.max 1 randomCount) today 7 20 in
  let! history := read_computeHistory in
  let! result := runScheduler today N strategy history in
  let! history1 := read_computeHistory in
  set_computeHistory (history1 ++ [inject_Z (totalCompute result)]) ;;
  ret (mkSimResult result incoming).

(** The loop of [simulateMultipleDays]: [n] days to go, the next one is [d]. *)
Fixpoint simulateMultipleDays_loop (n : nat) (d : Z) (N : Z) (strategy : string)
    (jobsPerDay : Z) (results : list SimResult) : M (list SimResult) :=
  match n with
  | O => ret results
  | S n' =>
      let! dayResult := simulateDay (inject_Z d) N strategy jobsPerDay in
      simulateMultipleDays_loop n' (d + 1) N strategy jobsPerDay
        (results ++ [dayResult])
  end.

(** [simulateMultipleDays(days, N, strategy, jobsPerDay)]. *)
Definition simulateMultipleDays (days N : Z) (strategy : string) (jobsPerDay : Z)
    : M (list SimResult) :=
  resetJobPool ;;
  set_computeHistory [] ;;
  simulateMultipleDays_loop (Z.to_nat days) 1 N strategy jobsPerDay [].

(** The [for (const s of strategies)] loop of [compareStrategies]. *)
Fixpoint compareStrategies_loop (strategies : list string) (days N jobs : Z)
    (comparison : gmap string (list SimResult)) : M (gmap string (list SimResult)) :=
  match strategies with
  | [] => ret comparison
  | s :: rest =>
      let! r := simulateMultipleDays days N s jobs in
      compareStrategies_loop rest days N jobs (<[s:=r]> comparison)
  end.

(** [compareStrategies(days, N, jobs)]. *)
Definition compareStrategies (days N jobs : Z) : M (gmap string (list SimResult)) :=
  compareStrategies_loop ["edf"; "lcf"; "random"] days N jobs ∅.

(** [resetSimulation()]. *)
Definition resetSimulation : M unit :=
  resetJobPool ;; set_computeHistory [].

(** ** [sortJobs] on array objects

    Arrays are objects: a store maps the address of an array to its contents.
    [jobs.slice()] allocates a new array, [copy.sort] and the shuffle write
    into it, and its address is returned. *)

(** [a.slice()]: a new array with the contents of the one at [a]. *)
Definition Array_slice (h : gmap nat (list Job.t)) (a : nat)
    : nat * gmap nat (list Job.t) :=
  let copy := fresh (dom h) in
  (copy, <[copy := default [] (h !! a)]> h).

(** [sortJobs(jobs, strategy)] where [jobs] is the address of the argument. *)
Definition sortJobs_ref (h : gmap nat (list Job.t)) (jobs : nat) (strategy : string)
    : M (nat * gmap nat (list Job.t)) :=
  let '(copy, h1) := Array_slice h jobs in
  if String.eqb strategy "edf" then
    ret (copy, alter (Array_sort edf_compare) copy h1)
  else if String.eqb strategy "lcf" then
    ret (copy, alter (Array_sort lcf_compare) copy h1)
  else if String.eqb strategy "random" then
    let contents := default [] (h1 !! copy) in
    let! shuffled := shuffle_loop (length contents - 1) contents in
    ret (copy, <[copy := shuffled]> h1)
  else throw (Error ("Unknown strategy: " +:+ dquote +:+ strategy +:+ dquote)).

(** Every occurrence of [a] in [l] is at a smaller index than every
    occurrence of [b]. *)
Definition appears_before (l : list Job.t) (a b : Job.t) : Prop :=
  forall i j : nat, l !! i = Some a -> l !! j = Some b -> (i < j)%nat.

(** ** The population variance, as the specification words it *)

(** [Σ hᵢ]. *)
Fixpoint Qsum (l : list Q) : Q :=
  match l with
  | [] => 0%Q
  | x :: l' => (x + Qsum l')%Q
  end.

(** [mean = Σhᵢ/n]. *)
Definition spec_mean (history : list Q) : Q :=
  (Qsum history / inject_Z (Z.of_nat (length history)))%Q.

(** [variance = Σ(hᵢ−mean)²/n], the divisor being [n]. *)
Definition spec_population_variance (history : list Q) : Q :=
  (Qsum (map (fun h => (h - spec_mean history) * (h - spec_mean history)) history)
   / inject_Z (Z.of_nat (length history)))%Q.

(** ** One lifetime of the pool *)

(** A call of a function of the engine that is not a reset:
    [resetJobPool], [resetSimulation], [simulateMultipleDays] and
    [compareStrategies] start a new lifetime, every other call is a step
    inside one, whether it returns or throws. *)
Inductive step : State -> State -> Prop :=
| step_addJob compute deadline today st o st' :
    addJob compute deadline today st = (o, st') -> step st st'
| step_removeExpiredJobs today st o st' :
    removeExpiredJobs today st = (o, st') -> step st st'
| step_runScheduler today N strategy computeHistory st o st' :
    runScheduler today N strategy computeHistory st = (o, st') -> step st st'
| step_generateRandomJobs count today maxOffset maxCompute st o st' :
    generateRandomJobs count today maxOffset maxCompute st = (o, st') -> step st st'
| step_simulateDay today N strategy incomingCount st o st' :
    simulateDay today N strategy incomingCount st = (o, st') -> step st st'.

(** [st'] is reached from [st] without a reset. *)
Definition same_lifetime : State -> State -> Prop := rtc step.

(** The ids in the pool are increasing in insertion order and below the
    counter. *)
Definition pool_ok (st : State) : Prop :=
  StronglySorted Z.lt (map Job.id (jobPool st)) /\
  Forall (fun i => i < jobIdCounter st) (map Job.id (jobPool st)).

(** From [st] to [st'] the id counter has not gone down and the invariant of
    the pool, if it held, still holds. *)
Definition evolves (st st' : State) : Prop :=
  jobIdCounter st <= jobIdCounter st' /\ (pool_ok st -> pool_ok st').

(** The recognised strategy names. *)
Definition recognised (strategy : string) : Prop :=
  strategy = "edf" \/ strategy = "lcf" \/ strategy = "random".

(** The state a module starts in. *)
Definition initial_state : State := mkState [] 1 [] 0.

(** ** simulation.js: worst-case injection *)

(** A job object returned by [injectWorstCaseTomorrow], with the
    [_worstCase] property the function sets on it.  The object is the one
    [addJob] pushed to the pool; no function of the engine reads the
    property, and the pool of the model holds the job without it. *)
Record Injected : Type := mkInjected {
  job : Job.t;
  _worstCase : bool
}.

(** One of the two loops of [injectWorstCaseTomorrow], [n] iterations to go:
    [compute = base + Math.floor(Math.random() * span)], then
    [addJob(compute, deadline, today)] outside any [try], the tag, the push.
    The first loop is [base = 18, span = 3, deadline = today], the second
    [base = 14, span = 7, deadline = today + 1]. *)
Fixpoint injectWorstCaseTomorrow_loop (n : nat) (base span : Z) (deadline today : Q)
    (injected : list Injected) : M (list Injected) :=
  match n with
  | O => ret injected
  | S n' =>
      let! r := Math_random in
      let compute := base + Math_floor (r * inject_Z span) in
      let! job := addJob (inject_Z compute) deadline today in
      injectWorstCaseTomorrow_loop n' base span deadline today
        (injected ++ [mkInjected job true])
  end.

(** [injectWorstCaseTomorrow(today)]. *)
Definition injectWorstCaseTomorrow (today : Q) : M (list Injected) :=
  let! injected := injectWorstCaseTomorrow_loop 3 18 3 today today [] in
  injectWorstCaseTomorrow_loop 8 14 7 (today + 1)%Q today injected.

(** The ids [c, c+1, ..] of [n] jobs created in a row. *)
Definition consecutive_ids (c : Z) (jobs : list Job.t) : Prop :=
  map Job.id jobs = seqZ c (Z.of_nat (length jobs)).

(** A random source that always returns 0, for concrete runs. *)
Definition zero_source : nat -> Q := fun _ => 0%Q.

(** [a] is placed before or level with [b] by the comparator [cmp]. *)
Definition cmp_le {A} (cmp : A -> A -> Z) (a b : A) : Prop := cmp a b <= 0.

(** Unfolding of the monad's operations. *)
Ltac run :=
  unfold resetJobPool, getJobPool, read_jobPool, read_computeHistory,
    set_jobPool, set_jobIdCounter, set_computeHistory, get, put, ret, throw,
    bind, try_catch; simpl.

(** * Properties *)

(** ** Numbers *)

Lemma Qlt_bool_iff (x y : Q) : Qlt_bool x y = true <-> (x < y)%Q.
Proof.
  unfold Qlt_bool. rewrite negb_true_iff, <- not_true_iff_false, Qle_bool_iff.
  split; [apply Qnot_le_lt | apply Qlt_not_le].
Qed.

Lemma Qlt_bool_false_iff (x y : Q) : Qlt_bool x y = false <-> (y <= x)%Q.
Proof.
  unfold Qlt_bool. rewrite negb_false_iff. apply Qle_bool_iff.
Qed.

Lemma Qle_bool_false_iff (x y : Q) : Qle_bool x y = false <-> (y < x)%Q.
Proof.
  rewrite <- not_true_iff_false, Qle_bool_iff.
  split; [apply Qnot_le_lt | apply Qlt_not_le].
Qed.

Lemma is_live_not_expired today j : is_live today j = negb (is_expired today j).
Proof. unfold is_live, is_expired, Qlt_bool. by rewrite negb_involutive. Qed.

Lemma Math_round_Z (z : Z) : Math_round (inject_Z z) = z.
Proof.
  unfold Math_round, Qfloor, inject_Z, Qplus; simpl.
  symmetry. apply Z.div_unique with (r := 1); lia.
Qed.

Lemma Math_round_mono (x y : Q) : (x <= y)%Q -> Math_round x <= Math_round y.
Proof.
  intros H. unfold Math_round. apply Qfloor_resp_le.
  by apply Qplus_le_compat; [|apply Qle_refl].
Qed.

(** ** [addJob] *)

Lemma addJob_throw_compute compute deadline today st :
  (compute <= 0)%Q ->
  addJob compute deadline today st
  = (Throw (Error "Compute units must be positive."), st).
Proof.
  intros H. unfold addJob. apply Qle_bool_iff in H. by rewrite H.
Qed.

Lemma addJob_throw_deadline compute deadline today st :
  (0 < compute)%Q -> (deadline < today)%Q ->
  addJob compute deadline today st
  = (Throw (Error "Deadline cannot be in the past."), st).
Proof.
  intros Hc Hd. unfold addJob.
  apply Qle_bool_false_iff in Hc. apply Qlt_bool_iff in Hd.
  by rewrite Hc, Hd.
Qed.

Lemma addJob_return compute deadline today st :
  (0 < compute)%Q -> (today <= deadline)%Q ->
  let job := Job.mk (jobIdCounter st) (Math_round compute) (Math_round deadline) today in
  addJob compute deadline today st
  = (Return job,
     mkState (jobPool st ++ [job]) (jobIdCounter st + 1) (_computeHistory st) (drawn st)).
Proof.
  intros Hc Hd. unfold addJob.
  apply Qle_bool_false_iff in Hc. apply Qlt_bool_false_iff in Hd.
  by rewrite Hc, Hd.
Qed.

(** The three outcomes of [addJob], by cases on its two tests. *)
Lemma addJob_cases compute deadline today st :
  ((compute <= 0)%Q /\
   addJob compute deadline today st
   = (Throw (Error "Compute units must be positive."), st)) \/
  ((0 < compute)%Q /\ (deadline < today)%Q /\
   addJob compute deadline today st
   = (Throw (Error "Deadline cannot be in the past."), st)) \/
  ((0 < compute)%Q /\ (today <= deadline)%Q /\
   addJob compute deadline today st
   = (Return (Job.mk (jobIdCounter st) (Math_round compute) (Math_round deadline) today),
      mkState
        (jobPool st ++ [Job.mk (jobIdCounter st) (Math_round compute) (Math_round deadline) today])
        (jobIdCounter st + 1) (_computeHistory st) (drawn st))).
Proof.
  destruct (Qlt_le_dec 0 compute) as [Hc|Hc].
  - destruct (Qlt_le_dec deadline today) as [Hd|Hd].
    + right; left. eauto using addJob_throw_deadline.
    + right; right. split; [done|]. split; [done|]. by apply addJob_return.
  - left. eauto using addJob_throw_compute.
Qed.

(** What a successful [addJob] stores: the tests held of the raw arguments,
    the stored values are the rounded ones. *)
Lemma addJob_Return_inv compute deadline today st job st' :
  addJob compute deadline today st = (Return job, st') ->
  (0 < compute)%Q /\ (today <= deadline)%Q /\
  job = Job.mk (jobIdCounter st) (Math_round compute) (Math_round deadline) today /\
  jobPool st' = jobPool st ++ [job] /\
  jobIdCounter st' = jobIdCounter st + 1 /\
  _computeHistory st' = _computeHistory st /\ drawn st' = drawn st.
Proof.
  intros H.
  destruct (addJob_cases compute deadline today st)
    as [[_ E]|[(_ & _ & E)|(Hc & Hd & E)]]; rewrite E in H; try discriminate.
  injection H as <- <-. simpl. done.
Qed.

Lemma addJob_Throw_inv compute deadline today st e st' :
  addJob compute deadline today st = (Throw e, st') ->
  st' = st /\ ((compute <= 0)%Q \/ (deadline < today)%Q).
Proof.
  intros H.
  destruct (addJob_cases compute deadline today st)
    as [[Hc E]|[(_ & Hd & E)|(_ & _ & E)]]; rewrite E in H; try discriminate.
  - injection H as _ <-. auto.
  - injection H as _ <-. auto.
Qed.

(** A stored compute is never negative, and is positive as soon as the
    argument is at least one half; for whole-number arguments the invariant
    of the pool holds. *)
Lemma addJob_stored_compute compute deadline today st job st' :
  addJob compute deadline today st = (Return job, st') ->
  0 <= Job.compute job /\ ((1 # 2 <= compute)%Q -> 0 < Job.compute job).
Proof.
  intros (Hc & _ & -> & _)%addJob_Return_inv. simpl. split.
  - change 0 with (Math_round (inject_Z 0)).
    apply Math_round_mono. by apply Qlt_le_weak.
  - intros Hh. apply Z.lt_le_trans with (Math_round (1 # 2)); [done|].
    by apply Math_round_mono.
Qed.

Lemma addJob_whole_numbers (compute deadline today : Z) st job st' :
  addJob (inject_Z compute) (inject_Z deadline) (inject_Z today) st = (Return job, st') ->
  0 < Job.compute job /\ (Job.addedDay job <= inject_Z (Job.deadline job))%Q.
Proof.
  intros (Hc & Hd & -> & _)%addJob_Return_inv. simpl.
  rewrite !Math_round_Z. split; [|done].
  change 0%Q with (inject_Z 0) in Hc. by rewrite <- Zlt_Qlt in Hc.
Qed.

(** C1 (the code departs from the claim): [addJob(0.25, 5, 1)] on the empty
    pool passes both tests, which are made before rounding, and the job it
    stores has [compute = Math.round(0.25) = 0], so a stored job does not
    always satisfy [compute > 0]. *)
Theorem addJob_stores_zero_compute :
  exists job st',
    addJob (1 # 4) 5 1 initial_state = (Return job, st') /\
    jobPool st' = [job] /\
    Job.compute job = 0.
Proof.
  exists (Job.mk 1 0 5 1), (mkState [Job.mk 1 0 5 1] 2 [] 0).
  split; [reflexivity|]. split; reflexivity.
Qed.

(** The same order of test and rounding lets a stored deadline fall before
    the stored [addedDay] when neither argument is a whole number. *)
Lemma addJob_stores_deadline_before_addedDay :
  exists job st',
    addJob 1 (14 # 10) (13 # 10) initial_state = (Return job, st') /\
    (inject_Z (Job.deadline job) < Job.addedDay job)%Q.
Proof.
  exists (Job.mk 1 1 1 (13 # 10)), (mkState [Job.mk 1 1 1 (13 # 10)] 2 [] 0).
  split; reflexivity.
Qed.

(** C10: when [addJob] throws (non-positive compute, or a deadline before
    today) the pool, the id counter and the rest of the state are unchanged,
    and every admission that succeeds next receives the id that was next
    before the failed call. *)
Theorem addJob_failure_leaves_state compute deadline today st :
  (compute <= 0)%Q \/ (deadline < today)%Q ->
  exists e st',
    addJob compute deadline today st = (Throw e, st') /\
    st' = st /\
    forall compute' deadline' today',
      (0 < compute')%Q -> (today' <= deadline')%Q ->
      exists job st'',
        addJob compute' deadline' today' st' = (Return job, st'') /\
        Job.id job = jobIdCounter st /\
        jobIdCounter st'' = jobIdCounter st + 1.
Proof.
  intros Hbad.
  assert (exists e, addJob compute deadline today st = (Throw e, st)) as [e He].
  { destruct (addJob_cases compute deadline today st)
      as [[_ E]|[(_ & _ & E)|(Hc & Hd & E)]]; eauto.
    destruct Hbad as [Hbad|Hbad].
    - by apply Qlt_not_le in Hc.
    - by apply Qlt_not_le in Hbad. }
  exists e, st. split; [done|]. split; [done|].
  intros c' d' t' Hc' Hd'. eexists _, _.
  split; [by apply addJob_return|]. done.
Qed.

(** ** [removeExpiredJobs] *)

Lemma removeExpiredJobs_eq today st :
  removeExpiredJobs today st
  = (Return (Expiry.mk (List.filter (is_live today) (jobPool st))
                       (List.filter (is_expired today) (jobPool st))),
     mkState (List.filter (is_live today) (jobPool st)) (jobIdCounter st)
             (_computeHistory st) (drawn st)).
Proof. reflexivity. Qed.

Lemma filter_live_idem today (l : list Job.t) :
  List.filter (is_live today) (List.filter (is_live today) l)
  = List.filter (is_live today) l.
Proof.
  induction l as [|j l IH]; simpl; [done|].
  destruct (is_live today j) eqn:E; simpl; rewrite ?E; congruence.
Qed.

Lemma filter_expired_live today (l : list Job.t) :
  List.filter (is_expired today) (List.filter (is_live today) l) = [].
Proof.
  induction l as [|j l IH]; simpl; [done|].
  destruct (is_live today j) eqn:E; simpl; [|done].
  rewrite is_live_not_expired in E. apply negb_true_iff in E. by rewrite E.
Qed.

Lemma filter_sublist {A} (f : A -> bool) (l : list A) : sublist (List.filter f l) l.
Proof.
  induction l as [|x l IH]; simpl; [constructor|].
  destruct (f x); by constructor.
Qed.

(** C8: one call of [removeExpiredJobs(today)] returns the jobs with
    [deadline < today] as expired and those with [deadline >= today] as
    remaining, both in the order of the pool, and leaves the remaining ones in
    the pool; a second call with the same [today] returns no expired job, the
    same remaining ones, and leaves the pool (and the whole state) as it was. *)
Theorem removeExpiredJobs_idempotent today st :
  exists r st1,
    removeExpiredJobs today st = (Return r, st1) /\
    Expiry.expired r = List.filter (is_expired today) (jobPool st) /\
    Expiry.remaining r = List.filter (negb ∘ is_expired today) (jobPool st) /\
    sublist (Expiry.expired r) (jobPool st) /\
    sublist (Expiry.remaining r) (jobPool st) /\
    Forall (fun j => (inject_Z (Job.deadline j) < today)%Q) (Expiry.expired r) /\
    Forall (fun j => (today <= inject_Z (Job.deadline j))%Q) (Expiry.remaining r) /\
    jobPool st1 = Expiry.remaining r /\
    removeExpiredJobs today st1 = (Return (Expiry.mk (Expiry.remaining r) []), st1).
Proof.
  eexists _, _. split; [apply removeExpiredJobs_eq|]. simpl.
  split; [done|]. split.
  { apply List.filter_ext. intros j. apply is_live_not_expired. }
  split; [apply filter_sublist|]. split; [apply filter_sublist|].
  split.
  { apply List.Forall_forall. intros j [_ Hj]%List.filter_In.
    by apply Qlt_bool_iff in Hj. }
  split.
  { apply List.Forall_forall. intros j [_ Hj]%List.filter_In.
    by apply Qle_bool_iff in Hj. }
  split; [done|].
  rewrite removeExpiredJobs_eq. simpl.
  by rewrite filter_live_idem, filter_expired_live.
Qed.

(** ** [Array.prototype.sort] *)

Section ArraySort.
Context {A : Type} (cmp : A -> A -> Z).

Hypothesis cmp_total : forall a b, cmp a b <= 0 \/ cmp b a <= 0.
Hypothesis cmp_trans : forall a b c, cmp a b <= 0 -> cmp b c <= 0 -> cmp a c <= 0.

Lemma sort_insert_Permutation x (l : list A) : sort_insert cmp x l ≡ₚ x :: l.
Proof.
  induction l as [|y l IH]; simpl; [done|].
  destruct (cmp x y <=? 0); [done|].
  rewrite IH. apply Permutation_swap.
Qed.

Lemma Array_sort_Permutation (l : list A) : Array_sort cmp l ≡ₚ l.
Proof.
  induction l as [|x l IH]; simpl; [done|].
  fold (Array_sort cmp l). by rewrite sort_insert_Permutation, IH.
Qed.

Lemma sort_insert_sorted x (l : list A) :
  StronglySorted (cmp_le cmp) l -> StronglySorted (cmp_le cmp) (sort_insert cmp x l).
Proof using cmp_total cmp_trans.
  induction 1 as [|y l Hs IH Hall]; simpl.
  - repeat constructor.
  - destruct (Z.leb_spec (cmp x y) 0) as [Hxy|Hxy].
    + constructor; [by constructor|].
      constructor; [done|].
      eapply Forall_impl; [exact Hall|]. intros z Hz. by eapply cmp_trans.
    + constructor; [done|].
      rewrite sort_insert_Permutation. constructor; [|done].
      destruct (cmp_total x y); [lia|done].
Qed.

Lemma Array_sort_sorted (l : list A) : StronglySorted (cmp_le cmp) (Array_sort cmp l).
Proof using cmp_total cmp_trans.
  induction l as [|x l IH]; simpl; [constructor|].
  by apply sort_insert_sorted.
Qed.

(** In a sorted array an entry at a smaller index is below one at a larger
    index. *)
Lemma StronglySorted_lookup_le (l : list A) (i j : nat) a b :
  StronglySorted (cmp_le cmp) l -> l !! i = Some a -> l !! j = Some b -> (i < j)%nat ->
  cmp a b <= 0.
Proof.
  intros Hs. revert i j. induction Hs as [|x l Hs IH Hall]; intros i j Hi Hj Hlt.
  - by rewrite lookup_nil in Hi.
  - destruct j as [|j]; [lia|]. simpl in Hj.
    destruct i as [|i]; simpl in Hi.
    + injection Hi as ->.
      rewrite Forall_forall in Hall. apply Hall.
      by eapply list_elem_of_lookup_2.
    + apply (IH i j); [done|done|lia].
Qed.

(** If [b] is not below [a], no occurrence of [b] comes before or at an
    occurrence of [a]. *)
Lemma Array_sort_strict_order (l : list A) (i j : nat) a b :
  0 < cmp b a ->
  Array_sort cmp l !! i = Some a -> Array_sort cmp l !! j = Some b ->
  (i < j)%nat.
Proof using cmp_total cmp_trans.
  intros Hba Hi Hj.
  destruct (Nat.lt_trichotomy i j) as [?|[->|Hgt]]; [done| |].
  - rewrite Hi in Hj. injection Hj as ->.
    destruct (cmp_total b b); lia.
  - pose proof (StronglySorted_lookup_le _ _ _ _ _ (Array_sort_sorted l) Hj Hi Hgt).
    lia.
Qed.
End ArraySort.

Lemma edf_compare_le a b :
  edf_compare a b <= 0 <->
  Job.deadline a < Job.deadline b \/
  (Job.deadline a = Job.deadline b /\ Job.compute a <= Job.compute b).
Proof.
  unfold edf_compare. destruct (Z.eqb_spec (Job.deadline a) (Job.deadline b)); simpl; lia.
Qed.

Lemma edf_compare_total a b : edf_compare a b <= 0 \/ edf_compare b a <= 0.
Proof. rewrite !edf_compare_le. lia. Qed.

Lemma edf_compare_trans a b c :
  edf_compare a b <= 0 -> edf_compare b c <= 0 -> edf_compare a c <= 0.
Proof. rewrite !edf_compare_le. lia. Qed.

Lemma lcf_compare_le a b :
  lcf_compare a b <= 0 <->
  Job.compute b < Job.compute a \/
  (Job.compute a = Job.compute b /\ Job.deadline a <= Job.deadline b).
Proof.
  unfold lcf_compare. destruct (Z.eqb_spec (Job.compute b) (Job.compute a)); simpl; lia.
Qed.

(** The ['edf'] order of the result, on the contents. *)
Lemma Array_sort_edf_order (l : list Job.t) a b :
  Job.deadline a < Job.deadline b \/
  (Job.deadline a = Job.deadline b /\ Job.compute a < Job.compute b) ->
  appears_before (Array_sort edf_compare l) a b.
Proof.
  intros Hab i j Hi Hj.
  apply (Array_sort_strict_order edf_compare edf_compare_total edf_compare_trans l i j a b);
    [|done|done].
  pose proof (edf_compare_le b a). lia.
Qed.

(** ** [sortJobs] *)

Lemma swap_Permutation (copy : list Job.t) i j : swap copy i j ≡ₚ copy.
Proof.
  unfold swap. destruct (copy !! i) eqn:Hi; [|done].
  destruct (copy !! j) eqn:Hj; [|done].
  by apply Permutation_insert_swap.
Qed.

(** The shuffle permutes the array; of the state it only advances the
    count of random draws. *)
Lemma shuffle_loop_spec (i : nat) (copy : list Job.t) st :
  exists shuffled,
    shuffle_loop i copy st
    = (Return shuffled,
       mkState (jobPool st) (jobIdCounter st) (_computeHistory st) (drawn st + i)%nat) /\
    shuffled ≡ₚ copy.
Proof.
  revert copy st. induction i as [|i IH]; intros copy st.
  - exists copy. split; [|done]. destruct st; simpl. unfold ret. do 2 f_equal. lia.
  - simpl. unfold bind at 1, Math_random at 1. simpl.
    edestruct IH as (shuffled & -> & Hp). simpl.
    exists shuffled. split; [do 2 f_equal; lia|].
    by rewrite Hp, swap_Permutation.
Qed.

Lemma recognised_eqb strategy :
  recognised strategy <->
  (String.eqb strategy "edf" || String.eqb strategy "lcf" || String.eqb strategy "random") = true.
Proof.
  unfold recognised. rewrite !orb_true_iff, !String.eqb_eq. tauto.
Qed.

Lemma unrecognised_eqb strategy :
  ~ recognised strategy ->
  String.eqb strategy "edf" = false /\ String.eqb strategy "lcf" = false /\
  String.eqb strategy "random" = false.
Proof.
  unfold recognised. rewrite !String.eqb_neq. tauto.
Qed.

(** For a recognised strategy [sortJobs] returns a permutation of its
    argument and leaves pool, counter and history alone. *)
Lemma sortJobs_recognised (jobs : list Job.t) strategy st :
  recognised strategy ->
  exists sorted n,
    sortJobs jobs strategy st
    = (Return sorted,
       mkState (jobPool st) (jobIdCounter st) (_computeHistory st) (drawn st + n)%nat) /\
    sorted ≡ₚ jobs.
Proof.
  intros [-> | [-> | ->]]; unfold sortJobs; simpl.
  - exists (Array_sort edf_compare jobs), 0%nat. split.
    + destruct st; unfold ret; simpl. do 2 f_equal. lia.
    + apply Array_sort_Permutation.
  - exists (Array_sort lcf_compare jobs), 0%nat. split.
    + destruct st; unfold ret; simpl. do 2 f_equal. lia.
    + apply Array_sort_Permutation.
  - destruct (shuffle_loop_spec (length jobs - 1) jobs st) as (shuffled & E & Hp).
    eauto.
Qed.

(** For any other name it throws, before touching anything. *)
Lemma sortJobs_unrecognised (jobs : list Job.t) strategy st :
  ~ recognised strategy ->
  sortJobs jobs strategy st
  = (Throw (Error ("Unknown strategy: " +:+ dquote +:+ strategy +:+ dquote)), st).
Proof.
  intros (E1 & E2 & E3)%unrecognised_eqb. unfold sortJobs. by rewrite E1, E2, E3.
Qed.

(** C6: ['edf'] sorting of the array at address [jobs] returns the address of
    a new array; the array at [jobs], and every other array, is as before;
    the new array holds the same jobs, a job with the earlier deadline before
    one with a later deadline, and for equal deadlines the one with the
    smaller compute before the other.  The contents are those [sortJobs]
    computes on contents. *)
Theorem sortJobs_edf_order (h : gmap nat (list Job.t)) (jobs : nat)
    (l : list Job.t) st :
  h !! jobs = Some l ->
  exists copy h' l',
    sortJobs_ref h jobs "edf" st = (Return (copy, h'), st) /\
    sortJobs l "edf" st = (Return l', st) /\
    copy <> jobs /\ h !! copy = None /\
    h' !! jobs = Some l /\
    (forall a, a <> copy -> h' !! a = h !! a) /\
    h' !! copy = Some l' /\
    l' ≡ₚ l /\
    forall a b,
      Job.deadline a < Job.deadline b \/
      (Job.deadline a = Job.deadline b /\ Job.compute a < Job.compute b) ->
      appears_before l' a b.
Proof.
  intros Hl.
  assert (h !! fresh (dom h) = None) as Hfresh.
  { apply not_elem_of_dom, is_fresh. }
  assert (fresh (dom h) <> jobs) as Hne by congruence.
  exists (fresh (dom h)), (<[fresh (dom h) := Array_sort edf_compare l]> h),
    (Array_sort edf_compare l).
  split.
  { unfold sortJobs_ref, Array_slice. simpl. rewrite Hl. simpl.
    unfold ret. do 2 f_equal.
    rewrite alter_insert_eq. done. }
  split; [done|]. split; [done|]. split; [done|].
  split; [by rewrite lookup_insert_ne|].
  split; [intros a Ha; by rewrite lookup_insert_ne|].
  split; [by rewrite lookup_insert_eq|].
  split; [apply Array_sort_Permutation|].
  intros a b Hab. by apply Array_sort_edf_order.
Qed.

(** ** [runScheduler] *)

(** The round for a recognised strategy, step by step: [sorted] is what
    [sortJobs] returned on the pool left by the expiry. *)
Lemma runScheduler_recognised today N strategy computeHistory st :
  recognised strategy ->
  let live := List.filter (is_live today) (jobPool st) in
  exists sorted n,
    sorted ≡ₚ live /\
    let selected := selectJobs sorted N in
    let rest := without_ids (id_set selected) live in
    runScheduler today N strategy computeHistory st
    = (Return
         (mkDayResult selected rest
            (List.filter (is_expired today) (jobPool st))
            (calculateTotalCompute selected) (calculateBacklog rest)
            (calculateLoadVariance
               (computeHistory ++ [inject_Z (calculateTotalCompute selected)]))
            today strategy),
       mkState rest (jobIdCounter st) (_computeHistory st) (drawn st + n)%nat).
Proof.
  intros Hrec live.
  destruct (sortJobs_recognised live strategy
              (mkState live (jobIdCounter st) (_computeHistory st) (drawn st)) Hrec)
    as (sorted & n & E & Hp).
  exists sorted, n. split; [done|]. simpl.
  unfold runScheduler. unfold bind at 1. rewrite removeExpiredJobs_eq.
  unfold bind at 1. unfold read_jobPool at 1. run. fold live. by rewrite E.
Qed.

(** The round for any other name: the expiry has been done, then [sortJobs]
    throws. *)
Lemma runScheduler_unrecognised today N strategy computeHistory st :
  ~ recognised strategy ->
  runScheduler today N strategy computeHistory st
  = (Throw (Error ("Unknown strategy: " +:+ dquote +:+ strategy +:+ dquote)),
     mkState (List.filter (is_live today) (jobPool st)) (jobIdCounter st)
       (_computeHistory st) (drawn st)).
Proof.
  intros Hun.
  unfold runScheduler. unfold bind at 1. rewrite removeExpiredJobs_eq.
  unfold bind at 1. unfold read_jobPool at 1. run.
  by rewrite sortJobs_unrecognised.
Qed.

(** C2, as amended: for every strategy name other than ['edf'], ['lcf'] and
    ['random'], [runScheduler] throws the error of [sortJobs] ("Unknown
    strategy"), so no result object is returned and no strategy is applied;
    the id counter, the history and the random source are untouched, and the
    pool is left holding the jobs with [deadline >= today], in their order:
    the expiry step has run before the throw. *)
Theorem runScheduler_unknown_strategy today N strategy computeHistory st :
  ~ recognised strategy ->
  exists st',
    runScheduler today N strategy computeHistory st
    = (Throw (Error ("Unknown strategy: " +:+ dquote +:+ strategy +:+ dquote)), st') /\
    jobPool st' = List.filter (is_live today) (jobPool st) /\
    jobIdCounter st' = jobIdCounter st /\
    _computeHistory st' = _computeHistory st /\
    drawn st' = drawn st.
Proof.
  intros Hun. eexists. split; [by apply runScheduler_unrecognised|]. done.
Qed.

Lemma partition_Permutation {A} (f g : A -> bool) (l : list A) :
  (forall x, g x = negb (f x)) ->
  List.filter f l ++ List.filter g l ≡ₚ l.
Proof.
  intros Hfg. induction l as [|x l IH]; simpl; [done|].
  rewrite Hfg. destruct (f x); simpl.
  - by rewrite IH.
  - by rewrite <- Permutation_middle, IH.
Qed.

Lemma without_ids_Permutation (ids : gset Z) (p q : list Job.t) :
  p ≡ₚ q -> without_ids ids p ≡ₚ without_ids ids q.
Proof.
  unfold without_ids. induction 1 as [|x p q _ IH|x y p|p q r _ IH1 _ IH2]; simpl.
  - done.
  - destruct (negb _); by rewrite IH.
  - do 2 destruct (negb _); try done. apply Permutation_swap.
  - by rewrite IH1.
Qed.

Lemma without_ids_all (l : list Job.t) (ids : gset Z) :
  Forall (fun j => Job.id j ∈ ids) l -> without_ids ids l = [].
Proof.
  unfold without_ids. induction 1 as [|j l Hj _ IH]; simpl; [done|].
  by rewrite bool_decide_eq_true_2.
Qed.

Lemma without_ids_none (l : list Job.t) (ids : gset Z) :
  Forall (fun j => Job.id j ∉ ids) l -> without_ids ids l = l.
Proof.
  unfold without_ids. induction 1 as [|j l Hj _ IH]; simpl; [done|].
  rewrite bool_decide_eq_false_2 by done. simpl. by rewrite IH.
Qed.

Lemma elem_of_id_set (l : list Job.t) (i : Z) : i ∈ id_set l <-> i ∈ map Job.id l.
Proof. unfold id_set. apply elem_of_list_to_set. Qed.

(** Removing by id the first part of an array whose ids are distinct leaves
    the second part. *)
Lemma without_ids_app (l1 l2 : list Job.t) :
  NoDup (map Job.id (l1 ++ l2)) ->
  without_ids (id_set l1) (l1 ++ l2) = l2.
Proof.
  intros Hnd. rewrite map_app in Hnd. apply NoDup_app in Hnd as (_ & Hdisj & _).
  unfold without_ids. rewrite List.filter_app.
  fold (without_ids (id_set l1) l1). fold (without_ids (id_set l1) l2).
  rewrite without_ids_all, without_ids_none; [done| |].
  - apply Forall_forall. intros j Hj Hin. apply elem_of_id_set in Hin.
    apply (Hdisj (Job.id j)); [done|]. by apply list_elem_of_fmap_2.
  - apply Forall_forall. intros j Hj. apply elem_of_id_set.
    by apply list_elem_of_fmap_2.
Qed.

(** C4: for every state whose pool holds distinct ids (every state the
    engine reaches, see [reachable_NoDup]), every day, batch size and
    recognised strategy, [runScheduler] returns a result whose [selected],
    [remaining] and [expired] jobs together are a rearrangement of the pool
    the call started from: the same ids, each once. *)
Theorem runScheduler_accounts_for_every_job today N strategy computeHistory st :
  NoDup (map Job.id (jobPool st)) ->
  recognised strategy ->
  exists r st',
    runScheduler today N strategy computeHistory st = (Return r, st') /\
    selected r ++ remaining r ++ expired r ≡ₚ jobPool st /\
    map Job.id (selected r) ++ map Job.id (remaining r) ++ map Job.id (expired r)
      ≡ₚ map Job.id (jobPool st) /\
    NoDup (map Job.id (selected r) ++ map Job.id (remaining r) ++ map Job.id (expired r)) /\
    jobPool st' = remaining r.
Proof.
  intros Hnd Hrec.
  destruct (runScheduler_recognised today N strategy computeHistory st Hrec)
    as (sorted & n & Hp & E). simpl in E.
  eexists _, _. split; [exact E|]. simpl.
  assert (selectJobs sorted N
            ++ without_ids (id_set (selectJobs sorted N))
                 (List.filter (is_live today) (jobPool st))
            ++ List.filter (is_expired today) (jobPool st) ≡ₚ jobPool st) as Hall.
  { rewrite <- (partition_Permutation (is_live today) (is_expired today) (jobPool st)) at 3.
    2:{ intros j. unfold is_live, is_expired, Qlt_bool. done. }
    rewrite (assoc_L (++)). f_equiv.
    rewrite (without_ids_Permutation _ _ _ (symmetry Hp)).
    unfold selectJobs.
    rewrite <- (take_drop (Z.to_nat (Z.max 0 N)) sorted) at 3.
    rewrite without_ids_app.
    - by rewrite take_drop.
    - rewrite take_drop, Hp.
      apply (sublist_NoDup _ (map Job.id (jobPool st))); [exact Hnd|].
      apply (fmap_sublist Job.id), filter_sublist. }
  split; [exact Hall|].
  assert (map Job.id (selectJobs sorted N)
          ++ map Job.id (without_ids (id_set (selectJobs sorted N))
                           (List.filter (is_live today) (jobPool st)))
          ++ map Job.id (List.filter (is_expired today) (jobPool st))
          ≡ₚ map Job.id (jobPool st)) as Hids.
  { rewrite <- !map_app. by apply Permutation_map. }
  split; [exact Hids|]. split; [|done].
  by rewrite Hids.
Qed.

(** ** The id counter and the invariant of the pool *)

Lemma evolves_refl st : evolves st st.
Proof. split; [lia|done]. Qed.

Lemma evolves_trans st1 st2 st3 : evolves st1 st2 -> evolves st2 st3 -> evolves st1 st3.
Proof. intros [H1 H1'] [H2 H2']. split; [lia|auto]. Qed.

Lemma pool_ok_initial : pool_ok initial_state.
Proof. split; simpl; constructor. Qed.

Lemma sublist_Forall {A} (P : A -> Prop) (l' l : list A) :
  sublist l' l -> Forall P l -> Forall P l'.
Proof.
  induction 1 as [|x l1 l2 Hl IH|x l1 l2 Hl IH]; intros Hall.
  - constructor.
  - apply Forall_cons in Hall as [Hx Hall]. constructor; auto.
  - apply Forall_cons in Hall as [Hx Hall]. auto.
Qed.

Lemma StronglySorted_sublist {A} (R : relation A) (l' l : list A) :
  sublist l' l -> StronglySorted R l -> StronglySorted R l'.
Proof.
  induction 1 as [|x l1 l2 Hl IH|x l1 l2 Hl IH]; intros Hs.
  - constructor.
  - apply StronglySorted_inv in Hs as [Hs Hx]. constructor; [auto|].
    by eapply sublist_Forall.
  - apply StronglySorted_inv in Hs as [Hs Hx]. auto.
Qed.

(** Keeping part of the pool, in order, keeps the invariant. *)
Lemma pool_ok_sublist st (p : list Job.t) (h : list Q) (k : nat) :
  sublist p (jobPool st) -> pool_ok st ->
  pool_ok (mkState p (jobIdCounter st) h k).
Proof.
  intros Hsub [Hs Hb]. apply (fmap_sublist Job.id) in Hsub.
  split; simpl.
  - by eapply StronglySorted_sublist.
  - by eapply sublist_Forall.
Qed.

(** Only the count of random draws differs. *)
Lemma pool_ok_drawn st (k : nat) :
  pool_ok st -> pool_ok (mkState (jobPool st) (jobIdCounter st) (_computeHistory st) k).
Proof. intros [? ?]. by split. Qed.

Lemma pool_ok_push st job (h : list Q) (k : nat) :
  Job.id job = jobIdCounter st -> pool_ok st ->
  pool_ok (mkState (jobPool st ++ [job]) (jobIdCounter st + 1) h k).
Proof.
  intros Hid [Hs Hb]. split; simpl; rewrite map_app; simpl.
  - apply StronglySorted_app. split; [|split; [done|repeat constructor]].
    intros x y Hx Hy. apply list_elem_of_singleton in Hy as ->.
    rewrite Forall_forall in Hb. rewrite Hid. by apply Hb.
  - apply Forall_app. split.
    + eapply Forall_impl; [exact Hb|]. simpl. intros; lia.
    + repeat constructor. lia.
Qed.

Lemma addJob_evolves compute deadline today st o st' :
  addJob compute deadline today st = (o, st') -> evolves st st'.
Proof.
  intros H.
  destruct (addJob_cases compute deadline today st)
    as [[_ E]|[(_ & _ & E)|(_ & _ & E)]]; rewrite E in H; injection H as <- <-.
  - apply evolves_refl.
  - apply evolves_refl.
  - split; simpl; [lia|]. by apply pool_ok_push.
Qed.

Lemma removeExpiredJobs_evolves today st o st' :
  removeExpiredJobs today st = (o, st') -> evolves st st'.
Proof.
  rewrite removeExpiredJobs_eq. intros H; injection H as <- <-.
  split; simpl; [lia|]. apply pool_ok_sublist, filter_sublist.
Qed.

Lemma recognised_or_not strategy : recognised strategy \/ ~ recognised strategy.
Proof.
  unfold recognised.
  destruct (String.eqb_spec strategy "edf"); [tauto|].
  destruct (String.eqb_spec strategy "lcf"); [tauto|].
  destruct (String.eqb_spec strategy "random"); tauto.
Qed.

(** [runScheduler] never writes the id counter or the history, whether it
    returns or throws, and keeps part of the pool. *)
Lemma runScheduler_frame today N strategy computeHistory st o st' :
  runScheduler today N strategy computeHistory st = (o, st') ->
  jobIdCounter st' = jobIdCounter st /\
  _computeHistory st' = _computeHistory st /\
  sublist (jobPool st') (jobPool st).
Proof.
  intros H. destruct (recognised_or_not strategy) as [Hrec|Hun].
  - destruct (runScheduler_recognised today N strategy computeHistory st Hrec)
      as (sorted & n & _ & E). simpl in E. rewrite E in H. injection H as <- <-.
    simpl. split; [done|]. split; [done|].
    etrans; [apply filter_sublist|apply filter_sublist].
  - rewrite runScheduler_unrecognised in H by done. injection H as <- <-.
    simpl. split; [done|]. split; [done|]. apply filter_sublist.
Qed.

Lemma runScheduler_evolves today N strategy computeHistory st o st' :
  runScheduler today N strategy computeHistory st = (o, st') -> evolves st st'.
Proof.
  intros (Hc & Hh & Hsub)%runScheduler_frame. split; [lia|].
  intros Hok. destruct st' as [p c h k]; simpl in *. subst c.
  by apply pool_ok_sublist.
Qed.

(** ** Random draws *)

(** [Math.floor(r * n)] for a draw [r] in [[0, 1)] is one of [0 .. n-1]. *)
Lemma floor_scaled_range (r : Q) (n : Z) :
  (0 <= r)%Q -> (r < 1)%Q -> 0 < n -> 0 <= Math_floor (r * inject_Z n) < n.
Proof.
  intros H0 H1 Hn. unfold Math_floor.
  assert (0 < inject_Z n)%Q as Hn'.
  { change 0%Q with (inject_Z 0). by rewrite <- Zlt_Qlt. }
  split.
  - change 0 with (Qfloor 0). apply Qfloor_resp_le.
    apply Qmult_le_0_compat; [done|by apply Qlt_le_weak].
  - rewrite Zlt_Qlt. eapply Qle_lt_trans; [apply Qfloor_le|].
    rewrite <- (Qmult_1_l (inject_Z n)) at 2.
    by apply Qmult_lt_compat_r.
Qed.

Lemma floor_scaled_nonneg (r : Q) (n : Z) :
  (0 <= r)%Q -> 0 <= n -> 0 <= Math_floor (r * inject_Z n).
Proof.
  intros H0 Hn. unfold Math_floor. change 0 with (Qfloor 0).
  apply Qfloor_resp_le. apply Qmult_le_0_compat; [done|].
  change 0%Q with (inject_Z 0). by rewrite <- Zle_Qle.
Qed.


(** ** [generateRandomJobs] *)

(** One [try { addJob ... created.push } catch {}]: at most one job is
    created, exactly one when the arguments pass the tests of [addJob]. *)
Lemma try_addJob compute deadline today (created : list Job.t) st :
  exists new st',
    try_catch
      (let! job := addJob compute deadline today in ret (created ++ [job]))
      (fun _ => ret created) st
    = (Return (created ++ new), st') /\
    evolves st st' /\
    _computeHistory st' = _computeHistory st /\
    drawn st' = drawn st /\
    jobPool st' = jobPool st ++ new /\
    ((0 < compute)%Q -> (today <= deadline)%Q -> length new = 1%nat).
Proof.
  unfold try_catch, bind.
  destruct (addJob compute deadline today st) as [[job|e] st1] eqn:E.
  - pose proof (addJob_evolves _ _ _ _ _ _ E) as Hev.
    apply addJob_Return_inv in E as (_ & _ & _ & Hp & _ & Hh & Hd).
    exists [job], st1. done.
  - apply addJob_Throw_inv in E as [-> Hbad].
    exists [], st. rewrite !app_nil_r. unfold ret.
    split; [done|]. split; [apply evolves_refl|]. do 3 (split; [done|]).
    intros Hc Hd. destruct Hbad as [Hbad|Hbad].
    + by apply Qlt_not_le in Hc.
    + by apply Qlt_not_le in Hbad.
Qed.

Lemma generateRandomJobs_loop_spec (n : nat) today maxOffset maxCompute
    (created : list Job.t) st :
  exists new st',
    generateRandomJobs_loop n today maxOffset maxCompute created st
    = (Return (created ++ new), st') /\
    evolves st st' /\
    _computeHistory st' = _computeHistory st /\
    drawn st' = (drawn st + 2 * n)%nat /\
    jobPool st' = jobPool st ++ new /\
    ((forall k, (0 <= rnd k)%Q /\ (rnd k < 1)%Q) -> 0 <= maxOffset -> 0 <= maxCompute ->
     length new = n).
Proof.
  revert created st. induction n as [|n IH]; intros created st.
  - exists [], st. simpl. rewrite !app_nil_r. unfold ret.
    split; [done|]. split; [apply evolves_refl|].
    do 2 (split; [done || lia|]). done.
  - cbn [generateRandomJobs_loop].
    unfold bind at 1, Math_random at 1. cbn [drawn jobPool jobIdCounter _computeHistory].
    unfold bind at 1, Math_random at 1. cbn [drawn jobPool jobIdCounter _computeHistory].
    unfold bind at 1.
    set (st2 := mkState (jobPool st) (jobIdCounter st) (_computeHistory st) (S (S (drawn st)))).
    set (compute := inject_Z (Math_floor (rnd (drawn st) * inject_Z maxCompute) + 1)).
    set (deadline := (today + inject_Z (Math_floor (rnd (S (drawn st)) * inject_Z maxOffset)))%Q).
    destruct (try_addJob compute deadline today created st2)
      as (new1 & st3 & -> & Hev1 & Hh1 & Hd1 & Hp1 & Hlen1).
    destruct (IH (created ++ new1) st3) as (new2 & st4 & -> & Hev2 & Hh2 & Hd2 & Hp2 & Hlen2).
    exists (new1 ++ new2), st4. rewrite (assoc_L (++)).
    split; [done|]. split.
    { eapply evolves_trans; [|exact Hev2]. eapply evolves_trans; [|exact Hev1].
      split; [simpl; lia|]. apply pool_ok_drawn. }
    split; [by rewrite Hh2, Hh1|].
    split; [rewrite Hd2, Hd1; simpl; lia|].
    split; [by rewrite Hp2, Hp1, (assoc_L (++))|].
    intros Hrnd Ho Hc. rewrite length_app, (Hlen2 Hrnd Ho Hc), Hlen1; [lia| |].
    + unfold compute. change 0%Q with (inject_Z 0). rewrite <- Zlt_Qlt.
      pose proof (floor_scaled_nonneg (rnd (drawn st)) maxCompute
                    (proj1 (Hrnd _)) Hc). lia.
    + unfold deadline. rewrite <- (Qplus_0_r today) at 1.
      apply Qplus_le_compat; [apply Qle_refl|].
      change 0%Q with (inject_Z 0). rewrite <- Zle_Qle.
      by apply floor_scaled_nonneg; [apply Hrnd|].
Qed.

Lemma generateRandomJobs_evolves count today maxOffset maxCompute st o st' :
  generateRandomJobs count today maxOffset maxCompute st = (o, st') -> evolves st st'.
Proof.
  unfold generateRandomJobs. intros H.
  destruct (generateRandomJobs_loop_spec (Z.to_nat count) today maxOffset maxCompute [] st)
    as (new & st1 & E & Hev & _). rewrite E in H. by injection H as <- <-.
Qed.

(** ** [simulateDay] *)

(** [simulateDay] with its sequencing spelled out. *)
Lemma simulateDay_eq today N strategy incomingCount st :
  simulateDay today N strategy incomingCount st
  = match generateRandomJobs
            (Z.max 1 (incomingCount + Math_floor (rnd (drawn st) * 4) - 1)) today 7 20
            (mkState (jobPool st) (jobIdCounter st) (_computeHistory st) (S (drawn st)))
    with
    | (Return incoming, st2) =>
        match runScheduler today N strategy (_computeHistory st2) st2 with
        | (Return result, st3) =>
            (Return (mkSimResult result incoming),
             mkState (jobPool st3) (jobIdCounter st3)
               (_computeHistory st3 ++ [inject_Z (totalCompute result)]) (drawn st3))
        | (Throw e, st3) => (Throw e, st3)
        end
    | (Throw e, st2) => (Throw e, st2)
    end.
Proof.
  unfold simulateDay. unfold bind at 1, Math_random at 1.
  cbn [drawn jobPool jobIdCounter _computeHistory].
  unfold bind at 1.
  destruct (generateRandomJobs _ today 7 20 _) as [[incoming|e] st2]; [|done].
  unfold bind at 1, read_computeHistory at 1. run.
  destruct (runScheduler today N strategy (_computeHistory st2) st2)
    as [[result|e] st3]; done.
Qed.

Lemma simulateDay_evolves today N strategy incomingCount st o st' :
  simulateDay today N strategy incomingCount st = (o, st') -> evolves st st'.
Proof.
  rewrite simulateDay_eq.
  set (st1 := mkState (jobPool st) (jobIdCounter st) (_computeHistory st) (S (drawn st))).
  assert (evolves st st1) as Hev1.
  { split; [simpl; lia|apply pool_ok_drawn]. }
  destruct (generateRandomJobs _ today 7 20 st1) as [o2 st2] eqn:E2.
  apply generateRandomJobs_evolves in E2 as Hev2.
  destruct o2 as [incoming|e].
  - destruct (runScheduler today N strategy (_computeHistory st2) st2)
      as [o3 st3] eqn:E3.
    apply runScheduler_evolves in E3 as Hev3.
    destruct o3 as [result|e]; intros H; injection H as <- <-.
    + eapply evolves_trans; [exact Hev1|]. eapply evolves_trans; [exact Hev2|].
      eapply evolves_trans; [exact Hev3|].
      split; [simpl; lia|]. intros [? ?]. by split.
    + eauto using evolves_trans.
  - intros H; injection H as <- <-. eauto using evolves_trans.
Qed.

(** A day with a recognised strategy returns; the number of arrivals is the
    count drawn, the day of the result is [today], and one entry is appended
    to the history. *)
Lemma simulateDay_recognised today N strategy incomingCount st :
  recognised strategy ->
  exists r st',
    simulateDay today N strategy incomingCount st = (Return r, st') /\
    day (result r) = today /\
    ((forall k, (0 <= rnd k)%Q /\ (rnd k < 1)%Q) ->
     length (incoming r)
     = Z.to_nat (Z.max 1 (incomingCount + Math_floor (rnd (drawn st) * 4) - 1))).
Proof.
  intros Hrec. rewrite simulateDay_eq. unfold generateRandomJobs.
  set (st1 := mkState (jobPool st) (jobIdCounter st) (_computeHistory st) (S (drawn st))).
  set (count := Z.max 1 (incomingCount + Math_floor (rnd (drawn st) * 4) - 1)).
  destruct (generateRandomJobs_loop_spec (Z.to_nat count) today 7 20 [] st1)
    as (new & st2 & -> & _ & _ & _ & _ & Hlen).
  destruct (runScheduler_recognised today N strategy (_computeHistory st2) st2 Hrec)
    as (sorted & n & _ & E). cbn zeta in E. rewrite E.
  eexists _, _. split; [done|]. split; [done|].
  intros Hrnd. simpl. apply Hlen; [done|lia|lia].
Qed.

(** C3 (the code departs from the claim): for every base count and every
    outcome of the random source, a day with a recognised strategy generates
    exactly the count it drew, and that count is
    [max(1, incomingCount + floor(4 r) - 1)] with [floor(4 r)] one of
    0, 1, 2, 3: it lies between [max(1, incomingCount - 1)] and
    [max(1, incomingCount + 2)], and for [incomingCount >= 3] it is never
    [incomingCount - 2]. *)
Theorem simulateDay_arrival_count today N strategy incomingCount st :
  (forall k, (0 <= rnd k)%Q /\ (rnd k < 1)%Q) ->
  recognised strategy ->
  exists r st',
    simulateDay today N strategy incomingCount st = (Return r, st') /\
    Z.of_nat (length (incoming r))
    = Z.max 1 (incomingCount + Math_floor (rnd (drawn st) * 4) - 1) /\
    Z.max 1 (incomingCount - 1) <= Z.of_nat (length (incoming r))
      <= Z.max 1 (incomingCount + 2) /\
    (3 <= incomingCount -> Z.of_nat (length (incoming r)) <> incomingCount - 2).
Proof.
  intros Hrnd Hrec.
  destruct (simulateDay_recognised today N strategy incomingCount st Hrec)
    as (r & st' & E & _ & Hlen).
  exists r, st'. split; [done|]. rewrite (Hlen Hrnd).
  destruct (Hrnd (drawn st)) as [H0 H1].
  pose proof (floor_scaled_range (rnd (drawn st)) 4 H0 H1 ltac:(lia)) as Hf.
  change (inject_Z 4) with 4%Q in Hf.
  split; [lia|]. split; lia.
Qed.

(** ** One lifetime *)

Lemma step_evolves st st' : step st st' -> evolves st st'.
Proof.
  destruct 1;
    eauto using addJob_evolves, removeExpiredJobs_evolves, runScheduler_evolves,
      generateRandomJobs_evolves, simulateDay_evolves.
Qed.

Lemma same_lifetime_evolves st st' : same_lifetime st st' -> evolves st st'.
Proof.
  induction 1 as [st|st1 st2 st3 Hstep _ IH].
  - apply evolves_refl.
  - eapply evolves_trans; [by apply step_evolves|exact IH].
Qed.

Lemma resetJobPool_eq st :
  resetJobPool st = (Return tt, mkState [] 1 (_computeHistory st) (drawn st)).
Proof. reflexivity. Qed.

(** Every state reached from a reset (or from the initial state) by calls
    of the engine holds distinct ids. *)
Lemma reachable_NoDup st0 st :
  jobPool st0 = [] -> same_lifetime st0 st -> NoDup (map Job.id (jobPool st)).
Proof.
  intros Hempty [_ Hok]%same_lifetime_evolves.
  destruct Hok as [Hs _].
  { split; rewrite Hempty; constructor. }
  revert Hs. generalize (map Job.id (jobPool st)). intros l.
  induction 1 as [|x l Hs IH Hall]; constructor; [|done].
  intros Hin. rewrite Forall_forall in Hall. specialize (Hall x Hin). lia.
Qed.

(** C5: of two successful admissions of one lifetime, whatever calls other
    than a reset come between them, the later receives the larger id, so the
    ids are pairwise distinct and increase in admission order;
    [resetJobPool] empties the pool and puts the counter back to 1, and the
    first admission after it receives id 1. *)
Theorem job_ids_increase_within_lifetime :
  (forall compute1 deadline1 today1 st1 job1 st1'
          compute2 deadline2 today2 st2 job2 st2',
     addJob compute1 deadline1 today1 st1 = (Return job1, st1') ->
     same_lifetime st1' st2 ->
     addJob compute2 deadline2 today2 st2 = (Return job2, st2') ->
     Job.id job1 < Job.id job2) /\
  (forall st,
     exists st0,
       resetJobPool st = (Return tt, st0) /\
       jobPool st0 = [] /\ jobIdCounter st0 = 1 /\
       forall compute deadline today job st',
         addJob compute deadline today st0 = (Return job, st') ->
         Job.id job = 1 /\ jobPool st' = [job]).
Proof.
  split.
  - intros c1 d1 t1 st1 job1 st1' c2 d2 t2 st2 job2 st2' E1 Hlife E2.
    apply addJob_Return_inv in E1 as (_ & _ & -> & _ & Hc1 & _).
    apply addJob_Return_inv in E2 as (_ & _ & -> & _).
    apply same_lifetime_evolves in Hlife as [Hle _]. simpl. lia.
  - intros st. eexists. split; [apply resetJobPool_eq|]. simpl.
    split; [done|]. split; [done|].
    intros c d t job st' (_ & _ & -> & Hp & _)%addJob_Return_inv.
    simpl in *. done.
Qed.

(** ** [simulateMultipleDays] and [compareStrategies] *)

Lemma seqZ_S (d : Z) (n : nat) :
  seqZ d (Z.of_nat (S n)) = d :: seqZ (d + 1) (Z.of_nat n).
Proof.
  rewrite seqZ_cons by lia. f_equal. f_equal; lia.
Qed.

Lemma simulateMultipleDays_loop_spec (n : nat) (d N : Z) strategy jobsPerDay
    (results : list SimResult) st :
  recognised strategy ->
  exists new st',
    simulateMultipleDays_loop n d N strategy jobsPerDay results st
    = (Return (results ++ new), st') /\
    length new = n /\
    map (fun r => day (result r)) new = map inject_Z (seqZ d (Z.of_nat n)).
Proof.
  intros Hrec. revert d results st. induction n as [|n IH]; intros d results st.
  - exists [], st. rewrite app_nil_r. done.
  - cbn [simulateMultipleDays_loop]. unfold bind at 1.
    destruct (simulateDay_recognised (inject_Z d) N strategy jobsPerDay st Hrec)
      as (r & st1 & -> & Hday & _).
    destruct (IH (d + 1) (results ++ [r]) st1) as (new & st2 & -> & Hlen & Hdays).
    exists (r :: new), st2. rewrite <- (assoc_L (++)). simpl.
    split; [done|]. split; [by rewrite Hlen|].
    rewrite seqZ_S. simpl. by rewrite Hday, Hdays.
Qed.

(** A run starts from an empty pool, counter 1 and an empty history whatever
    the state it is called in: only the position in the sequence of random
    draws is carried over. *)
Lemma simulateMultipleDays_reset days N strategy jobsPerDay st :
  simulateMultipleDays days N strategy jobsPerDay st
  = simulateMultipleDays_loop (Z.to_nat days) 1 N strategy jobsPerDay []
      (mkState [] 1 [] (drawn st)).
Proof. reflexivity. Qed.

Lemma simulateMultipleDays_spec days N strategy jobsPerDay st :
  recognised strategy ->
  exists results st',
    simulateMultipleDays days N strategy jobsPerDay st = (Return results, st') /\
    length results = Z.to_nat days /\
    map (fun r => day (result r)) results = map inject_Z (seqZ 1 days) /\
    forall st0, drawn st0 = drawn st ->
      simulateMultipleDays days N strategy jobsPerDay st0 = (Return results, st').
Proof.
  intros Hrec. rewrite simulateMultipleDays_reset.
  destruct (simulateMultipleDays_loop_spec (Z.to_nat days) 1 N strategy jobsPerDay []
              (mkState [] 1 [] (drawn st)) Hrec) as (new & st' & E & Hlen & Hdays).
  exists new, st'. split; [exact E|]. split; [done|]. split.
  - rewrite Hdays. destruct (Z.le_gt_cases 0 days).
    + by rewrite Z2Nat.id.
    + rewrite Z2Nat.nonpos, (seqZ_nil 1 days) by lia. done.
  - intros st0 Hd. by rewrite simulateMultipleDays_reset, Hd.
Qed.

(** C9: for [days >= 1], every [N] and every [jobs], [compareStrategies]
    returns an object with exactly the three keys ['edf'], ['lcf'] and
    ['random']; each entry is a sequence of exactly [days] results whose day
    numbers are 1, 2, .., [days] in order; and each entry is what
    [simulateMultipleDays] returns for that strategy from any pool, id counter
    and history, at the position of the random source the run started at:
    every run starts by emptying the pool and the history, so none sees
    another run's jobs. *)
Theorem compareStrategies_three_runs days N jobs st :
  1 <= days ->
  exists comparison st',
    compareStrategies days N jobs st = (Return comparison, st') /\
    dom comparison = ({["edf"; "lcf"; "random"]} : gset string) /\
    size comparison = 3%nat /\
    forall s results,
      comparison !! s = Some results ->
      recognised s /\
      Z.of_nat (length results) = days /\
      map (fun r => day (result r)) results = map inject_Z (seqZ 1 days) /\
      exists k, forall st0, drawn st0 = k ->
        exists st0', simulateMultipleDays days N s jobs st0 = (Return results, st0').
Proof.
  intros Hdays. unfold compareStrategies. cbn [compareStrategies_loop].
  destruct (simulateMultipleDays_spec days N "edf" jobs st) as (r1 & st1 & E1 & L1 & D1 & I1);
    [by left|].
  destruct (simulateMultipleDays_spec days N "lcf" jobs st1) as (r2 & st2 & E2 & L2 & D2 & I2);
    [by right; left|].
  destruct (simulateMultipleDays_spec days N "random" jobs st2) as (r3 & st3 & E3 & L3 & D3 & I3);
    [by right; right|].
  unfold bind at 1. rewrite E1. unfold bind at 1. rewrite E2.
  unfold bind at 1. rewrite E3. unfold ret.
  eexists _, _. split; [done|]. split.
  { rewrite !dom_insert_L, dom_empty_L. set_solver. }
  split.
  { rewrite !map_size_insert_None, map_size_empty; [done|done|..].
    - by simplify_map_eq.
    - by simplify_map_eq. }
  intros s results Hs.
  apply lookup_insert_Some in Hs as [[<- <-]|[_ Hs]].
  { split; [by right; right|]. split; [lia|]. split; [done|]. eauto. }
  apply lookup_insert_Some in Hs as [[<- <-]|[_ Hs]].
  { split; [by right; left|]. split; [lia|]. split; [done|]. eauto. }
  apply lookup_insert_Some in Hs as [[<- <-]|[_ Hs]].
  { split; [by left|]. split; [lia|]. split; [done|]. eauto. }
  by rewrite lookup_empty in Hs.
Qed.

(** ** [calculateLoadVariance] *)

Lemma double_partial_sum_fold (l : list float) (k : nat) :
  (k <= length l)%nat ->
  fold_left PrimFloat.add (take k l) 0%float = double_partial_sum l k.
Proof.
  induction k as [|k IH]; intros Hk; [by rewrite take_0|].
  destruct (lookup_lt_is_Some_2 l k) as [x Hx]; [lia|].
  rewrite (take_S_r _ _ _ Hx), fold_left_app, IH by lia. simpl.
  apply list_elem_of_split_length in Hx as (l1 & l2 & -> & ->).
  by rewrite List.app_nth2, Nat.sub_diag by lia.
Qed.

Lemma fold_left_double_sum (l : list float) :
  fold_left PrimFloat.add l 0%float = double_partial_sum l (length l).
Proof.
  rewrite <- double_partial_sum_fold by lia. by rewrite firstn_all.
Qed.

(** C7, as amended: [calculateLoadVariance] returns 0 for every history with
    fewer than two entries; for any longer one it returns what
    [Σ(hᵢ−mean)²/n] with [mean = Σhᵢ/n] gives when evaluated in doubles, the
    sums taken in index order from 0, every operation rounding and the
    divisor being [n]; on [2,4,4,4,5,5,7,9] that is exactly 4 and on
    [5,5,5] exactly 0. *)
Theorem calculateLoadVariance_double_formula :
  (forall history : list float,
     (length history < 2)%nat -> calculateLoadVariance_double history = 0%float) /\
  (forall history : list float,
     (2 <= length history)%nat ->
     calculateLoadVariance_double history = spec_variance_double history) /\
  calculateLoadVariance_double [2; 4; 4; 4; 5; 5; 7; 9]%float = 4%float /\
  calculateLoadVariance_double [5; 5; 5]%float = 0%float.
Proof.
  split; [|split; [|split]].
  - intros history Hlen. unfold calculateLoadVariance_double.
    by destruct (Nat.ltb_spec (length history) 2); [|lia].
  - intros history Hlen. unfold calculateLoadVariance_double, spec_variance_double.
    destruct (Nat.ltb_spec (length history) 2); [lia|].
    cbv zeta. rewrite (fold_left_double_sum (map _ history)), length_map.
    unfold spec_mean_double, Math_pow2_double.
    by rewrite (fold_left_double_sum history).
  - vm_compute. reflexivity.
  - vm_compute. reflexivity.
Qed.

(** * Further properties of the engine *)

(** ** [sortJobs], the other strategies *)

Lemma lcf_compare_total a b : lcf_compare a b <= 0 \/ lcf_compare b a <= 0.
Proof. rewrite !lcf_compare_le. lia. Qed.

Lemma lcf_compare_trans a b c :
  lcf_compare a b <= 0 -> lcf_compare b c <= 0 -> lcf_compare a c <= 0.
Proof. rewrite !lcf_compare_le. lia. Qed.

(** X1: ['lcf'] sorting returns the same jobs, a job with the larger compute
    before one with a smaller compute, and for equal compute the one with the
    earlier deadline first; it draws no random number and writes nothing. *)
Theorem sortJobs_lcf_order (l : list Job.t) st :
  exists l',
    sortJobs l "lcf" st = (Return l', st) /\
    l' ≡ₚ l /\
    forall a b,
      Job.compute b < Job.compute a \/
      (Job.compute a = Job.compute b /\ Job.deadline a < Job.deadline b) ->
      appears_before l' a b.
Proof.
  exists (Array_sort lcf_compare l). split; [done|].
  split; [apply Array_sort_Permutation|].
  intros a b Hab i j Hi Hj.
  apply (Array_sort_strict_order lcf_compare lcf_compare_total lcf_compare_trans l i j a b);
    [|done|done].
  pose proof (lcf_compare_le b a). lia.
Qed.



(** X3: for each of the three strategies, [sortJobs] on the array at
    address [jobs] returns the address of a newly allocated array holding a
    rearrangement of the jobs; the array at [jobs] and every other array of
    the store are as before. *)
Theorem sortJobs_ref_input_untouched (h : gmap nat (list Job.t)) (jobs : nat)
    (l : list Job.t) strategy st :
  h !! jobs = Some l ->
  recognised strategy ->
  exists copy h' l' st',
    sortJobs_ref h jobs strategy st = (Return (copy, h'), st') /\
    sortJobs l strategy st = (Return l', st') /\
    h !! copy = None /\
    h' !! jobs = Some l /\
    (forall a, a <> copy -> h' !! a = h !! a) /\
    h' !! copy = Some l' /\
    l' ≡ₚ l.
Proof.
  intros Hl Hrec.
  assert (h !! fresh (dom h) = None) as Hfresh.
  { apply not_elem_of_dom, is_fresh. }
  assert (fresh (dom h) <> jobs) as Hne by congruence.
  destruct (sortJobs_recognised l strategy st Hrec) as (l' & n & E & Hp).
  exists (fresh (dom h)), (<[fresh (dom h) := l']> h), l'.
  exists (mkState (jobPool st) (jobIdCounter st) (_computeHistory st) (drawn st + n)%nat).
  split.
  { unfold sortJobs_ref, Array_slice. rewrite Hl. cbn [default].
    unfold sortJobs in E.
    destruct Hrec as [-> | [-> | ->]];
      cbn [String.eqb Ascii.eqb Bool.eqb andb] in *.
    - unfold ret, id in *. injection E as El Est. rewrite <- Est, <- El.
      by rewrite alter_insert_eq.
    - unfold ret, id in *. injection E as El Est. rewrite <- Est, <- El.
      by rewrite alter_insert_eq.
    - rewrite lookup_insert_eq. cbn [default]. unfold id, bind. rewrite E.
      unfold ret. by rewrite insert_insert_eq. }
  split; [exact E|]. split; [done|].
  split; [by rewrite lookup_insert_ne|].
  split; [intros a Ha; by rewrite lookup_insert_ne|].
  split; [by rewrite lookup_insert_eq|done].
Qed.

(** ** [getRemainingJobs] *)

Lemma elem_of_without_ids (ids : gset Z) (all : list Job.t) j :
  j ∈ without_ids ids all <-> j ∈ all /\ Job.id j ∉ ids.
Proof.
  unfold without_ids. rewrite !list_elem_of_In, List.filter_In, negb_true_iff.
  rewrite bool_decide_eq_false. done.
Qed.

(** X4: [getRemainingJobs(all, selected)] keeps, in the order of [all],
    exactly the jobs of [all] whose id is the id of no selected job; with
    nothing selected it returns all of them, and removing the same selection
    again changes nothing. *)
Theorem getRemainingJobs_by_id (all selected : list Job.t) :
  sublist (getRemainingJobs all selected) all /\
  (forall j, j ∈ getRemainingJobs all selected <->
             j ∈ all /\ Job.id j ∉ map Job.id selected) /\
  getRemainingJobs all [] = all /\
  getRemainingJobs (getRemainingJobs all selected) selected
  = getRemainingJobs all selected.
Proof.
  unfold getRemainingJobs. split; [apply filter_sublist|]. split; [|split].
  - intros j. by rewrite elem_of_without_ids, elem_of_id_set.
  - apply without_ids_none, Forall_forall. intros j _. set_solver.
  - apply without_ids_none, Forall_forall. intros j Hj.
    by apply elem_of_without_ids in Hj as [_ ?].
Qed.

(** X5: when the ids of [all] are distinct and the selected jobs are among
    the jobs of [all], the selected jobs and the remaining ones together are
    a rearrangement of [all]: nothing is lost and nothing is kept twice. *)
Theorem getRemainingJobs_complement (all selected : list Job.t) :
  NoDup (map Job.id all) ->
  selected ⊆+ all ->
  selected ++ getRemainingJobs all selected ≡ₚ all.
Proof.
  intros Hnd Hsub.
  apply submseteq_Permutation in Hsub as [k Hk].
  unfold getRemainingJobs.
  rewrite (without_ids_Permutation _ _ _ Hk), without_ids_app; [by rewrite Hk|].
  by rewrite <- Hk.
Qed.

(** ** [calculateTotalCompute] *)

Lemma fold_left_compute (l : list Job.t) (a : Z) :
  fold_left (fun acc j => acc + Job.compute j) l a = a + calculateTotalCompute l.
Proof.
  unfold calculateTotalCompute. revert a. induction l as [|x l IH]; intros a; simpl.
  - lia.
  - rewrite IH, (IH (0 + Job.compute x)). lia.
Qed.

Lemma calculateTotalCompute_cons x (l : list Job.t) :
  calculateTotalCompute (x :: l) = Job.compute x + calculateTotalCompute l.
Proof.
  unfold calculateTotalCompute at 1. simpl. rewrite fold_left_compute. lia.
Qed.

Lemma calculateTotalCompute_app (l1 l2 : list Job.t) :
  calculateTotalCompute (l1 ++ l2) = calculateTotalCompute l1 + calculateTotalCompute l2.
Proof.
  induction l1 as [|x l1 IH]; simpl; [done|].
  rewrite !calculateTotalCompute_cons, IH. lia.
Qed.

Lemma calculateTotalCompute_Permutation (l1 l2 : list Job.t) :
  l1 ≡ₚ l2 -> calculateTotalCompute l1 = calculateTotalCompute l2.
Proof.
  induction 1; rewrite ?calculateTotalCompute_cons; lia.
Qed.

(** ** [runScheduler], the round as a whole *)

(** What is left after removing the first [k] of a rearrangement of the
    pool by id is the rest of the rearrangement. *)
Lemma without_ids_take (live sorted : list Job.t) (k : nat) :
  NoDup (map Job.id live) -> sorted ≡ₚ live ->
  without_ids (id_set (take k sorted)) live ≡ₚ drop k sorted.
Proof.
  intros Hnd Hp.
  rewrite (without_ids_Permutation _ _ _ (symmetry Hp)).
  rewrite <- (take_drop k sorted) at 2.
  rewrite without_ids_app; [done|]. by rewrite take_drop, Hp.
Qed.

Lemma NoDup_ids_live today (pool : list Job.t) :
  NoDup (map Job.id pool) -> NoDup (map Job.id (List.filter (is_live today) pool)).
Proof.
  intros Hnd. apply (sublist_NoDup _ (map Job.id pool)); [exact Hnd|].
  apply (fmap_sublist Job.id), filter_sublist.
Qed.

Lemma calculateTotalCompute_nonneg (l : list Job.t) :
  Forall (fun j => 0 <= Job.compute j) l -> 0 <= calculateTotalCompute l.
Proof.
  induction 1 as [|x l Hx _ IH]; [done|].
  rewrite calculateTotalCompute_cons. lia.
Qed.

Lemma calculateTotalCompute_take (l : list Job.t) (k : nat) :
  Forall (fun j => 0 <= Job.compute j) l ->
  0 <= calculateTotalCompute (take k l) <= calculateTotalCompute l.
Proof.
  intros Hall. rewrite <- (take_drop k l) at 3. rewrite calculateTotalCompute_app.
  rewrite <- (take_drop k l) in Hall. apply Forall_app in Hall as [H1 H2].
  apply calculateTotalCompute_nonneg in H1, H2. lia.
Qed.

(** X6: for a pool of non-negative computes whose sum is at most 2^53, a
    round conserves compute: the compute dispatched plus the compute of the
    jobs left in the pool plus the compute of the expired jobs is the compute
    of the pool the round started from.  Under that bound the three sums, and
    every partial sum the reduction over the selected jobs forms, are whole
    numbers between 0 and 2^53, which doubles add without rounding. *)
Theorem runScheduler_conserves_compute today N strategy computeHistory st :
  NoDup (map Job.id (jobPool st)) ->
  Forall (fun j => 0 <= Job.compute j) (jobPool st) ->
  calculateTotalCompute (jobPool st) <= 2 ^ 53 ->
  recognised strategy ->
  exists r st',
    runScheduler today N strategy computeHistory st = (Return r, st') /\
    totalCompute r + calculateTotalCompute (jobPool st')
      + calculateTotalCompute (expired r)
    = calculateTotalCompute (jobPool st) /\
    0 <= calculateTotalCompute (jobPool st') <= 2 ^ 53 /\
    0 <= calculateTotalCompute (expired r) <= 2 ^ 53 /\
    forall k : nat, 0 <= calculateTotalCompute (take k (selected r)) <= 2 ^ 53.
Proof.
  intros Hnd Hpos Hmax Hrec.
  destruct (runScheduler_recognised today N strategy computeHistory st Hrec)
    as (sorted & n & Hp & E). cbn zeta in E.
  eexists _, _. split; [exact E|]. cbn [totalCompute expired selected jobPool].
  assert (Forall (fun j => 0 <= Job.compute j)
            (List.filter (is_live today) (jobPool st))) as Hlive.
  { eapply sublist_Forall; [apply filter_sublist|exact Hpos]. }
  assert (Forall (fun j => 0 <= Job.compute j)
            (List.filter (is_expired today) (jobPool st))) as Hexp.
  { eapply sublist_Forall; [apply filter_sublist|exact Hpos]. }
  assert (Forall (fun j => 0 <= Job.compute j) sorted) as Hsorted by (by rewrite Hp).
  assert (calculateTotalCompute (selectJobs sorted N)
          + calculateTotalCompute
              (without_ids (id_set (selectJobs sorted N))
                 (List.filter (is_live today) (jobPool st)))
          + calculateTotalCompute (List.filter (is_expired today) (jobPool st))
          = calculateTotalCompute (jobPool st)) as Hsum.
  { unfold selectJobs.
    rewrite (calculateTotalCompute_Permutation _ _
               (without_ids_take _ sorted (Z.to_nat (Z.max 0 N))
                  (NoDup_ids_live today _ Hnd) Hp)).
    rewrite <- calculateTotalCompute_app, take_drop.
    rewrite <- calculateTotalCompute_app.
    apply calculateTotalCompute_Permutation.
    rewrite Hp. rewrite (comm (++)).
    apply partition_Permutation. intros j. unfold is_live, is_expired, Qlt_bool.
    by rewrite negb_involutive. }
  assert (0 <= calculateTotalCompute (selectJobs sorted N)) as Hsel0.
  { unfold selectJobs. by apply calculateTotalCompute_take. }
  assert (0 <= calculateTotalCompute
                 (without_ids (id_set (selectJobs sorted N))
                    (List.filter (is_live today) (jobPool st)))) as Hrem0.
  { apply calculateTotalCompute_nonneg.
    eapply sublist_Forall; [apply filter_sublist|exact Hlive]. }
  pose proof (calculateTotalCompute_nonneg _ Hexp) as Hexp0.
  split; [exact Hsum|]. split; [lia|]. split; [lia|].
  intros k.
  assert (Forall (fun j => 0 <= Job.compute j) (selectJobs sorted N)) as Hselall.
  { unfold selectJobs. eapply sublist_Forall; [apply sublist_take|exact Hsorted]. }
  pose proof (calculateTotalCompute_take (selectJobs sorted N) k Hselall). lia.
Qed.

(** X7: in a round with a recognised strategy no expired job is selected:
    every selected job comes from the pool and has [deadline >= today]; the
    number selected is the smaller of [max(0, N)] and the number of jobs with
    [deadline >= today]; every job reported expired has [deadline < today];
    every job left in the pool has [deadline >= today], and the pool left is
    the [remaining] of the result, of which [backlogSize] is the length. *)
Theorem runScheduler_selects_live_jobs today N strategy computeHistory st :
  recognised strategy ->
  exists r st',
    runScheduler today N strategy computeHistory st = (Return r, st') /\
    Forall (fun j => j ∈ jobPool st /\ (today <= inject_Z (Job.deadline j))%Q)
      (selected r) /\
    length (selected r)
    = Nat.min (Z.to_nat (Z.max 0 N))
        (length (List.filter (is_live today) (jobPool st))) /\
    Forall (fun j => j ∈ jobPool st /\ (inject_Z (Job.deadline j) < today)%Q)
      (expired r) /\
    Forall (fun j => j ∈ jobPool st /\ (today <= inject_Z (Job.deadline j))%Q)
      (remaining r) /\
    jobPool st' = remaining r /\
    backlogSize r = Z.of_nat (length (remaining r)) /\
    totalCompute r = calculateTotalCompute (selected r).
Proof.
  intros Hrec.
  destruct (runScheduler_recognised today N strategy computeHistory st Hrec)
    as (sorted & n & Hp & E). cbn zeta in E.
  eexists _, _. split; [exact E|].
  cbn [selected remaining expired jobPool backlogSize totalCompute].
  assert (forall j, j ∈ List.filter (is_live today) (jobPool st) ->
                    j ∈ jobPool st /\ (today <= inject_Z (Job.deadline j))%Q) as Hlive.
  { intros j Hj. apply list_elem_of_In, List.filter_In in Hj as [Hin Hj].
    split; [by apply list_elem_of_In|]. by apply Qle_bool_iff in Hj. }
  split.
  { apply Forall_forall. intros j Hj. apply Hlive. rewrite <- Hp.
    unfold selectJobs in Hj. apply elem_of_take in Hj as (i & Hi & _).
    by eapply list_elem_of_lookup_2. }
  split.
  { unfold selectJobs. by rewrite length_take, Hp. }
  split.
  { apply Forall_forall. intros j Hj.
    apply list_elem_of_In, List.filter_In in Hj as [Hin Hj].
    split; [by apply list_elem_of_In|]. by apply Qlt_bool_iff in Hj. }
  split.
  { apply Forall_forall. intros j Hj. apply Hlive.
    by apply elem_of_without_ids in Hj as [? _]. }
  done.
Qed.

(** The round when [sortJobs] is a comparator sort. *)
Lemma runScheduler_sorted cmp today N strategy computeHistory st :
  (forall l st0, sortJobs l strategy st0 = (Return (Array_sort cmp l), st0)) ->
  NoDup (map Job.id (jobPool st)) ->
  exists r st',
    runScheduler today N strategy computeHistory st = (Return r, st') /\
    selected r
    = take (Z.to_nat (Z.max 0 N))
        (Array_sort cmp (List.filter (is_live today) (jobPool st))) /\
    remaining r
    ≡ₚ drop (Z.to_nat (Z.max 0 N))
         (Array_sort cmp (List.filter (is_live today) (jobPool st))).
Proof.
  intros Hsort Hnd.
  unfold runScheduler. unfold bind at 1. rewrite removeExpiredJobs_eq.
  unfold bind at 1. unfold read_jobPool at 1. run. rewrite Hsort.
  eexists _, _. split; [done|]. simpl. split; [done|].
  apply without_ids_take; [by apply NoDup_ids_live|apply Array_sort_Permutation].
Qed.

(** X8: under ['edf'] the jobs selected are the most urgent ones: every
    selected job has an earlier deadline than every job left in the pool, or
    the same deadline and no larger compute. *)
Theorem runScheduler_edf_most_urgent today N computeHistory st :
  NoDup (map Job.id (jobPool st)) ->
  exists r st',
    runScheduler today N "edf" computeHistory st = (Return r, st') /\
    forall a b, a ∈ selected r -> b ∈ remaining r ->
      Job.deadline a < Job.deadline b \/
      (Job.deadline a = Job.deadline b /\ Job.compute a <= Job.compute b).
Proof.
  intros Hnd.
  destruct (runScheduler_sorted edf_compare today N "edf" computeHistory st
              ltac:(done) Hnd) as (r & st' & E & Hsel & Hrem).
  exists r, st'. split; [exact E|]. intros a b Ha Hb.
  rewrite Hsel in Ha. rewrite Hrem in Hb. apply edf_compare_le.
  apply (StronglySorted_app_1_elem_of (cmp_le edf_compare) _ _ a b
           ltac:(rewrite take_drop;
                 apply (Array_sort_sorted edf_compare edf_compare_total edf_compare_trans))
           Ha Hb).
Qed.

(** X9: under ['lcf'] the jobs selected are the largest ones: every selected
    job has a larger compute than every job left in the pool, or the same
    compute and no later deadline. *)
Theorem runScheduler_lcf_largest today N computeHistory st :
  NoDup (map Job.id (jobPool st)) ->
  exists r st',
    runScheduler today N "lcf" computeHistory st = (Return r, st') /\
    forall a b, a ∈ selected r -> b ∈ remaining r ->
      Job.compute b < Job.compute a \/
      (Job.compute a = Job.compute b /\ Job.deadline a <= Job.deadline b).
Proof.
  intros Hnd.
  destruct (runScheduler_sorted lcf_compare today N "lcf" computeHistory st
              ltac:(done) Hnd) as (r & st' & E & Hsel & Hrem).
  exists r, st'. split; [exact E|]. intros a b Ha Hb.
  rewrite Hsel in Ha. rewrite Hrem in Hb. apply lcf_compare_le.
  apply (StronglySorted_app_1_elem_of (cmp_le lcf_compare) _ _ a b
           ltac:(rewrite take_drop;
                 apply (Array_sort_sorted lcf_compare lcf_compare_total lcf_compare_trans))
           Ha Hb).
Qed.

(** X10: with a batch size [N <= 0], or with an empty pool, a round with a
    recognised strategy selects nothing: [selected] is empty, [totalCompute]
    is 0, and the jobs with [deadline >= today] stay in the pool in their
    order. *)
Theorem runScheduler_nothing_selected today N strategy computeHistory st :
  recognised strategy ->
  N <= 0 \/ jobPool st = [] ->
  exists r st',
    runScheduler today N strategy computeHistory st = (Return r, st') /\
    selected r = [] /\
    totalCompute r = 0 /\
    remaining r = List.filter (is_live today) (jobPool st) /\
    jobPool st' = remaining r.
Proof.
  intros Hrec Hcase.
  destruct (runScheduler_recognised today N strategy computeHistory st Hrec)
    as (sorted & n & Hp & E). cbn zeta in E.
  eexists _, _. split; [exact E|].
  cbn [selected remaining totalCompute jobPool].
  assert (selectJobs sorted N = []) as ->.
  { unfold selectJobs. destruct Hcase as [HN|Hempty].
    - by replace (Z.to_nat (Z.max 0 N)) with 0%nat by lia.
    - rewrite Hempty in Hp. apply Permutation_nil_r in Hp as ->.
      by rewrite take_nil. }
  split; [done|]. split; [done|]. split; [|done].
  apply without_ids_none, Forall_forall. intros j _. set_solver.
Qed.

(** ** [removeExpiredJobs] and [addJob] together *)

Lemma is_live_later today today' j :
  (today <= today')%Q -> is_live today' j = true -> is_live today j = true.
Proof.
  unfold is_live. rewrite !Qle_bool_iff. intros H1 H2. by eapply Qle_trans.
Qed.

Lemma filter_live_later today today' (l : list Job.t) :
  (today <= today')%Q ->
  List.filter (is_live today') (List.filter (is_live today) l)
  = List.filter (is_live today') l.
Proof.
  intros Hle. induction l as [|j l IH]; simpl; [done|].
  destruct (is_live today j) eqn:E; simpl.
  - by rewrite IH.
  - destruct (is_live today' j) eqn:E'; [|done].
    apply (is_live_later today today' j Hle) in E'. congruence.
Qed.

Lemma filter_expired_later today today' (l : list Job.t) :
  (today <= today')%Q ->
  List.filter (is_expired today) l
    ++ List.filter (is_expired today') (List.filter (is_live today) l)
  ≡ₚ List.filter (is_expired today') l.
Proof.
  intros Hle. induction l as [|j l IH]; simpl; [done|].
  rewrite (is_live_not_expired today j).
  destruct (is_expired today j) eqn:E; simpl.
  - assert (is_expired today' j = true) as ->.
    { apply Qlt_bool_iff. apply Qlt_bool_iff in E. by eapply Qlt_le_trans. }
    by rewrite IH.
  - destruct (is_expired today' j); [|done].
    by rewrite <- Permutation_middle, IH.
Qed.

(** X11: expiring for a day and then for a later day leaves the state that
    expiring for the later day alone leaves, with the same remaining jobs,
    and the jobs expired by the two calls together are those the single call
    expires. *)
Theorem removeExpiredJobs_later_day today today' st :
  (today <= today')%Q ->
  exists r1 st1 r2 st2 r st',
    removeExpiredJobs today st = (Return r1, st1) /\
    removeExpiredJobs today' st1 = (Return r2, st2) /\
    removeExpiredJobs today' st = (Return r, st') /\
    st2 = st' /\
    Expiry.remaining r2 = Expiry.remaining r /\
    Expiry.expired r1 ++ Expiry.expired r2 ≡ₚ Expiry.expired r.
Proof.
  intros Hle. eexists _, _, _, _, _, _.
  split; [apply removeExpiredJobs_eq|].
  split; [apply removeExpiredJobs_eq|].
  split; [apply removeExpiredJobs_eq|]. simpl.
  rewrite filter_live_later by done.
  split; [done|]. split; [done|]. by apply filter_expired_later.
Qed.

(** X12: a job admitted with a whole-number deadline [d] is kept by every
    expiry for a day not after [d], the day of admission included: it is
    among the remaining jobs and not among the expired ones. *)
Theorem addJob_survives_expiry compute (d : Z) today st job st1 today' :
  addJob compute (inject_Z d) today st = (Return job, st1) ->
  (today' <= inject_Z d)%Q ->
  (today <= inject_Z d)%Q /\
  exists r st2,
    removeExpiredJobs today' st1 = (Return r, st2) /\
    job ∈ Expiry.remaining r /\ (job ∉ Expiry.expired r) /\ job ∈ jobPool st2.
Proof.
  intros (_ & Hd & -> & Hp & _)%addJob_Return_inv Hle.
  split; [done|].
  eexists _, _. split; [apply removeExpiredJobs_eq|]. simpl.
  set (job := Job.mk (jobIdCounter st) (Math_round compute) (Math_round (inject_Z d)) today) in *.
  assert (is_live today' job = true) as Hlive.
  { unfold is_live, job. simpl. rewrite Math_round_Z. by apply Qle_bool_iff. }
  assert (job ∈ List.filter (is_live today') (jobPool st1)) as Hin.
  { apply list_elem_of_In, List.filter_In. split; [|done].
    apply list_elem_of_In. rewrite Hp. set_solver. }
  split; [done|]. split; [|done].
  intros Hex. apply list_elem_of_In, List.filter_In in Hex as [_ Hex].
  rewrite is_live_not_expired, Hex in Hlive. done.
Qed.

(** X13: in every state reached from an empty pool by calls other than a
    reset, the ids in the pool increase strictly in pool order (the pool is in
    admission order and no id occurs twice) and each is below the counter. *)
Theorem pool_in_admission_order st0 st :
  jobPool st0 = [] ->
  same_lifetime st0 st ->
  StronglySorted Z.lt (map Job.id (jobPool st)) /\
  NoDup (map Job.id (jobPool st)) /\
  Forall (fun i => i < jobIdCounter st) (map Job.id (jobPool st)) /\
  jobIdCounter st0 <= jobIdCounter st.
Proof.
  intros Hempty [Hle Hok]%same_lifetime_evolves.
  destruct Hok as [Hs Hb].
  { split; rewrite Hempty; constructor. }
  split; [done|]. split; [|done].
  clear Hb. revert Hs. generalize (map Job.id (jobPool st)). intros l.
  induction 1 as [|x l Hs IH Hall]; constructor; [|done].
  intros Hin. rewrite Forall_forall in Hall. specialize (Hall x Hin). lia.
Qed.

(** ** [calculateLoadVariance], on equal entries *)

(** X14: in doubles a history of equal entries need not have variance 0: on
    three entries 0.1 the sum is 0.30000000000000004, the mean
    0.10000000000000002, and [calculateLoadVariance] returns 2^-112, a
    positive number; on three entries 5, where no operation rounds, it
    returns 0. *)
Theorem calculateLoadVariance_double_equal_entries :
  calculateLoadVariance_double
    [0x1.999999999999ap-4; 0x1.999999999999ap-4; 0x1.999999999999ap-4]%float
  = 0x1p-112%float /\
  PrimFloat.ltb 0 0x1p-112 = true /\
  calculateLoadVariance_double
    [0x1.999999999999ap-4; 0x1.999999999999ap-4; 0x1.999999999999ap-4]%float
  <> 0%float /\
  calculateLoadVariance_double [5; 5; 5]%float = 0%float.
Proof.
  split; [vm_compute; reflexivity|]. split; [vm_compute; reflexivity|].
  split; [|vm_compute; reflexivity].
  vm_compute. intros H. discriminate H.
Qed.

(** ** [generateRandomJobs] and [injectWorstCaseTomorrow], job by job *)

Lemma Math_round_Z_plus (a b : Z) : Math_round (inject_Z a + inject_Z b) = a + b.
Proof.
  rewrite <- (Math_round_Z (a + b)). unfold Math_round.
  apply Qfloor_comp. rewrite inject_Z_plus. reflexivity.
Qed.

Lemma Qle_plus_nonneg (today : Q) (off : Z) :
  0 <= off -> (today <= today + inject_Z off)%Q.
Proof.
  intros Hoff. rewrite <- (Qplus_0_r today) at 1.
  apply Qplus_le_compat; [apply Qle_refl|].
  change 0%Q with (inject_Z 0). by rewrite <- Zle_Qle.
Qed.

Lemma inject_Z_pos (z : Z) : 0 < z -> (0 < inject_Z z)%Q.
Proof. intros Hz. change 0%Q with (inject_Z 0). by rewrite <- Zlt_Qlt. Qed.

Lemma generateRandomJobs_loop_strong (n : nat) today maxOffset maxCompute
    (created : list Job.t) st :
  (forall k, (0 <= rnd k)%Q /\ (rnd k < 1)%Q) ->
  0 < maxOffset -> 0 < maxCompute ->
  exists new st',
    generateRandomJobs_loop n today maxOffset maxCompute created st
    = (Return (created ++ new), st') /\
    length new = n /\
    jobPool st' = jobPool st ++ new /\
    map Job.id new = seqZ (jobIdCounter st) (Z.of_nat n) /\
    jobIdCounter st' = jobIdCounter st + Z.of_nat n /\
    _computeHistory st' = _computeHistory st /\
    drawn st' = (drawn st + 2 * n)%nat /\
    Forall (fun j =>
              1 <= Job.compute j <= maxCompute /\
              (exists off, 0 <= off < maxOffset /\
                           Job.deadline j = Math_round (today + inject_Z off)) /\
              Job.addedDay j = today) new.
Proof.
  intros Hrnd Ho Hc. revert created st. induction n as [|n IH]; intros created st.
  - exists [], st. cbn [generateRandomJobs_loop]. rewrite !app_nil_r. unfold ret.
    split; [done|]. split; [done|]. split; [done|]. split; [done|].
    split; [simpl; lia|]. split; [done|]. split; [lia|]. constructor.
  - cbn [generateRandomJobs_loop].
    unfold bind at 1, Math_random at 1. cbn [drawn jobPool jobIdCounter _computeHistory].
    unfold bind at 1, Math_random at 1. cbn [drawn jobPool jobIdCounter _computeHistory].
    unfold bind at 1. unfold try_catch, bind at 1.
    destruct (Hrnd (drawn st)) as [Ha0 Ha1]. destruct (Hrnd (S (drawn st))) as [Hb0 Hb1].
    pose proof (floor_scaled_range _ maxCompute Ha0 Ha1 Hc) as Hcomp.
    pose proof (floor_scaled_range _ maxOffset Hb0 Hb1 Ho) as Hoff.
    rewrite addJob_return;
      [|apply inject_Z_pos; lia|apply Qle_plus_nonneg; lia].
    cbv zeta. unfold ret at 1.
    cbn [drawn jobPool jobIdCounter _computeHistory].
    match goal with
    | |- context [generateRandomJobs_loop n today maxOffset maxCompute (created ++ [?j]) ?s] =>
        destruct (IH (created ++ [j]) s)
          as (new & st' & -> & Hlen & Hp & Hids & Hctr & Hh & Hd & Hall);
        exists (j :: new), st'
    end.
    cbn [drawn jobPool jobIdCounter _computeHistory] in *.
    rewrite <- (assoc_L (++)). split; [done|].
    split; [simpl; lia|].
    split; [by rewrite Hp, <- (assoc_L (++))|].
    split; [rewrite seqZ_S; simpl; by rewrite Hids|].
    split; [lia|]. split; [done|]. split; [lia|].
    constructor; [|done]. cbn [Job.compute Job.deadline Job.addedDay].
    rewrite Math_round_Z. split; [lia|]. split; [|done]. eauto.
Qed.

(** X15: when every draw is in [[0, 1)] and both maxima are positive,
    [generateRandomJobs(count, today, maxOffset, maxCompute)] with a
    whole-number [today] never skips a draw: it creates exactly [count] jobs
    (none for [count <= 0]), appends them to the pool in the order returned,
    gives them the next [count] ids, and each has [1 <= compute <=
    maxCompute], [today <= deadline <= today + maxOffset - 1] and
    [addedDay = today]; it makes two draws per job and writes nothing else. *)
Theorem generateRandomJobs_arrivals count (today : Z) maxOffset maxCompute st :
  (forall k, (0 <= rnd k)%Q /\ (rnd k < 1)%Q) ->
  0 < maxOffset -> 0 < maxCompute ->
  exists created st',
    generateRandomJobs count (inject_Z today) maxOffset maxCompute st
    = (Return created, st') /\
    length created = Z.to_nat count /\
    jobPool st' = jobPool st ++ created /\
    consecutive_ids (jobIdCounter st) created /\
    jobIdCounter st' = jobIdCounter st + Z.of_nat (length created) /\
    _computeHistory st' = _computeHistory st /\
    drawn st' = (drawn st + 2 * Z.to_nat count)%nat /\
    Forall (fun j =>
              1 <= Job.compute j <= maxCompute /\
              today <= Job.deadline j <= today + maxOffset - 1 /\
              Job.addedDay j = inject_Z today) created.
Proof.
  intros Hrnd Ho Hc. unfold generateRandomJobs, consecutive_ids.
  destruct (generateRandomJobs_loop_strong (Z.to_nat count) (inject_Z today)
              maxOffset maxCompute [] st Hrnd Ho Hc)
    as (new & st' & E & Hlen & Hp & Hids & Hctr & Hh & Hd & Hall).
  exists new, st'. rewrite Hlen. do 7 (split; [done|]).
  eapply Forall_impl; [exact Hall|]. simpl.
  intros j (Hcomp & (off & Hoff & Hdl) & Hadd).
  rewrite Math_round_Z_plus in Hdl. split; [done|]. split; [lia|done].
Qed.

Lemma injectWorstCaseTomorrow_loop_spec (n : nat) base span deadline today
    (injected : list Injected) st :
  (forall k, (0 <= rnd k)%Q /\ (rnd k < 1)%Q) ->
  0 < base -> 0 < span -> (today <= deadline)%Q ->
  exists new st',
    injectWorstCaseTomorrow_loop n base span deadline today injected st
    = (Return (injected ++ new), st') /\
    length new = n /\
    jobPool st' = jobPool st ++ map job new /\
    map Job.id (map job new) = seqZ (jobIdCounter st) (Z.of_nat n) /\
    jobIdCounter st' = jobIdCounter st + Z.of_nat n /\
    _computeHistory st' = _computeHistory st /\
    drawn st' = (drawn st + n)%nat /\
    Forall (fun x =>
              _worstCase x = true /\
              base <= Job.compute (job x) <= base + span - 1 /\
              Job.deadline (job x) = Math_round deadline /\
              Job.addedDay (job x) = today) new.
Proof.
  intros Hrnd Hb Hs Hd. revert injected st. induction n as [|n IH]; intros injected st.
  - exists [], st. cbn [injectWorstCaseTomorrow_loop]. rewrite !app_nil_r. unfold ret.
    split; [done|]. split; [done|]. split; [done|]. split; [done|].
    split; [simpl; lia|]. split; [done|]. split; [lia|]. constructor.
  - cbn [injectWorstCaseTomorrow_loop].
    unfold bind at 1, Math_random at 1. cbn [drawn jobPool jobIdCounter _computeHistory].
    unfold bind at 1.
    destruct (Hrnd (drawn st)) as [Ha0 Ha1].
    pose proof (floor_scaled_range _ span Ha0 Ha1 Hs) as Hcomp.
    rewrite addJob_return; [|apply inject_Z_pos; lia|done].
    cbv zeta. cbn [drawn jobPool jobIdCounter _computeHistory].
    match goal with
    | |- context [injectWorstCaseTomorrow_loop n base span deadline today (injected ++ [?x]) ?s] =>
        destruct (IH (injected ++ [x]) s)
          as (new & st' & -> & Hlen & Hp & Hids & Hctr & Hh & Hdr & Hall);
        exists (x :: new), st'
    end.
    cbn [drawn jobPool jobIdCounter _computeHistory] in *.
    rewrite <- (assoc_L (++)). split; [done|].
    split; [simpl; lia|].
    split; [by rewrite Hp, <- (assoc_L (++))|].
    split; [rewrite seqZ_S; simpl; by rewrite Hids|].
    split; [lia|]. split; [done|]. split; [lia|].
    constructor; [|done].
    cbn [job _worstCase Job.compute Job.deadline Job.addedDay].
    rewrite Math_round_Z. split; [done|]. split; [lia|done].
Qed.

(** X16: when every draw is in [[0, 1)], [injectWorstCaseTomorrow(today)]
    with a whole-number [today] never throws and returns exactly 11 jobs, all
    tagged [_worstCase]: the first 3 are due [today] with compute 18 to 20,
    the next 8 are due [today + 1] with compute 14 to 20; they are appended
    to the pool in that order with the next 11 ids, after one draw each. *)
Theorem injectWorstCaseTomorrow_eleven_jobs (today : Z) st :
  (forall k, (0 <= rnd k)%Q /\ (rnd k < 1)%Q) ->
  exists injected st',
    injectWorstCaseTomorrow (inject_Z today) st = (Return injected, st') /\
    length injected = 11%nat /\
    Forall (fun x => _worstCase x = true /\ Job.addedDay (job x) = inject_Z today)
      injected /\
    Forall (fun x => Job.deadline (job x) = today /\ 18 <= Job.compute (job x) <= 20)
      (take 3 injected) /\
    Forall (fun x => Job.deadline (job x) = today + 1 /\ 14 <= Job.compute (job x) <= 20)
      (drop 3 injected) /\
    jobPool st' = jobPool st ++ map job injected /\
    consecutive_ids (jobIdCounter st) (map job injected) /\
    jobIdCounter st' = jobIdCounter st + 11 /\
    _computeHistory st' = _computeHistory st /\
    drawn st' = (drawn st + 11)%nat.
Proof.
  intros Hrnd. unfold injectWorstCaseTomorrow, bind.
  destruct (injectWorstCaseTomorrow_loop_spec 3 18 3 (inject_Z today) (inject_Z today) [] st
              Hrnd ltac:(lia) ltac:(lia) (Qle_refl _))
    as (new1 & st1 & -> & Hlen1 & Hp1 & Hids1 & Hctr1 & Hh1 & Hd1 & Hall1).
  destruct (injectWorstCaseTomorrow_loop_spec 8 14 7 (inject_Z today + 1)%Q (inject_Z today)
              new1 st1 Hrnd ltac:(lia) ltac:(lia))
    as (new2 & st2 & E2 & Hlen2 & Hp2 & Hids2 & Hctr2 & Hh2 & Hd2 & Hall2).
  { change 1%Q with (inject_Z 1). apply Qle_plus_nonneg. lia. }
  simpl app at 1. rewrite E2. exists (new1 ++ new2), st2.
  split; [done|]. split; [rewrite length_app; lia|].
  split.
  { apply Forall_app. split; (eapply Forall_impl; [eassumption|]); simpl; tauto. }
  split.
  { rewrite take_app_length' by done.
    eapply Forall_impl; [exact Hall1|]. simpl. intros x (_ & Hc & Hdl & _).
    rewrite Math_round_Z in Hdl. split; [done|lia]. }
  split.
  { rewrite drop_app_length' by done.
    eapply Forall_impl; [exact Hall2|]. simpl. intros x (_ & Hc & Hdl & _).
    change 1%Q with (inject_Z 1) in Hdl. rewrite Math_round_Z_plus in Hdl.
    split; [done|lia]. }
  split; [by rewrite Hp2, Hp1, map_app, (assoc_L (++))|].
  split.
  { unfold consecutive_ids. rewrite !map_app, Hids1, Hids2, Hctr1, !length_app, !length_map.
    rewrite Hlen1, Hlen2. change (Z.of_nat (3 + 8)) with (3 + 8).
    by rewrite (seqZ_app _ 3 8). }
  split; [lia|]. split; [by rewrite Hh2|lia].
Qed.

(** ** [simulateDay], the history and the arrivals *)

Lemma StronglySorted_lt_NoDup (l : list Z) : StronglySorted Z.lt l -> NoDup l.
Proof.
  induction 1 as [|x l Hs IH Hall]; constructor; [|done].
  intros Hin. rewrite Forall_forall in Hall. specialize (Hall x Hin). lia.
Qed.



(** X18: in a state whose pool holds increasing ids below the counter, when
    every draw is in [[0, 1)], a job that arrives on a whole-number day is
    never expired by that day's round: each arrival is either selected or
    left in the pool. *)
Theorem simulateDay_arrivals_not_expired (today : Z) N strategy incomingCount st :
  pool_ok st ->
  (forall k, (0 <= rnd k)%Q /\ (rnd k < 1)%Q) ->
  recognised strategy ->
  exists r st',
    simulateDay (inject_Z today) N strategy incomingCount st = (Return r, st') /\
    Forall (fun j => (j ∉ expired (result r)) /\
                     (j ∈ selected (result r) \/ j ∈ remaining (result r)))
      (incoming r).
Proof.
  intros Hok Hrnd Hrec. rewrite simulateDay_eq.
  set (st1 := mkState (jobPool st) (jobIdCounter st) (_computeHistory st) (S (drawn st))).
  set (count := Z.max 1 (incomingCount + Math_floor (rnd (drawn st) * 4) - 1)).
  destruct (generateRandomJobs_arrivals count today 7 20 st1 Hrnd ltac:(lia) ltac:(lia))
    as (created & st2 & E2 & _ & Hp & _ & _ & _ & _ & Hall).
  rewrite E2.
  assert (NoDup (map Job.id (jobPool st2))) as Hnd.
  { apply generateRandomJobs_evolves in E2 as [_ Hok2].
    apply StronglySorted_lt_NoDup, Hok2. by apply pool_ok_drawn. }
  destruct (runScheduler_recognised (inject_Z today) N strategy (_computeHistory st2) st2 Hrec)
    as (sorted & n & Hsorted & E). cbn zeta in E. rewrite E.
  eexists _, _. split; [done|]. cbn [result incoming expired selected remaining].
  apply Forall_forall. intros j Hj.
  rewrite Forall_forall in Hall. destruct (Hall j Hj) as (_ & [Hdl _] & _).
  assert (is_live (inject_Z today) j = true) as Hlive.
  { apply Qle_bool_iff. by rewrite <- Zle_Qle. }
  assert (j ∈ List.filter (is_live (inject_Z today)) (jobPool st2)) as Hin.
  { apply list_elem_of_In, List.filter_In. split; [|done].
    apply list_elem_of_In. rewrite Hp. apply elem_of_app. by right. }
  split.
  - intros Hex. apply list_elem_of_In, List.filter_In in Hex as [_ Hex].
    rewrite is_live_not_expired, Hex in Hlive. done.
  - rewrite (without_ids_take _ sorted (Z.to_nat (Z.max 0 N))
               (NoDup_ids_live (inject_Z today) _ Hnd) Hsorted).
    unfold selectJobs. rewrite <- Hsorted in Hin.
    rewrite <- (take_drop (Z.to_nat (Z.max 0 N)) sorted) in Hin.
    by apply elem_of_app in Hin.
Qed.

Lemma simulateDay_unrecognised today N strategy incomingCount st :
  ~ recognised strategy ->
  exists st',
    simulateDay today N strategy incomingCount st
    = (Throw (Error ("Unknown strategy: " +:+ dquote +:+ strategy +:+ dquote)), st').
Proof.
  intros Hun. rewrite simulateDay_eq. unfold generateRandomJobs.
  match goal with
  | |- context [generateRandomJobs_loop ?n ?t ?o ?c [] ?s] =>
      destruct (generateRandomJobs_loop_spec n t o c [] s) as (new & st2 & -> & _)
  end.
  rewrite runScheduler_unrecognised by done. eauto.
Qed.

(** X19: a day with an unknown strategy throws the error of [sortJobs] only
    after the arrivals were generated and the expiry was done: when every
    draw is in [[0, 1)] and [today] is a whole number, the drawn number of
    jobs has been created and has used that many ids, the pool holds its
    former jobs with [deadline >= today] followed by the arrivals, and the
    history has no new entry. *)
Theorem simulateDay_unknown_strategy (today : Z) N strategy incomingCount st :
  ~ recognised strategy ->
  (forall k, (0 <= rnd k)%Q /\ (rnd k < 1)%Q) ->
  exists (created : list Job.t) st',
    simulateDay (inject_Z today) N strategy incomingCount st
    = (Throw (Error ("Unknown strategy: " +:+ dquote +:+ strategy +:+ dquote)), st') /\
    Z.of_nat (length created)
    = Z.max 1 (incomingCount + Math_floor (rnd (drawn st) * 4) - 1) /\
    jobPool st' = List.filter (is_live (inject_Z today)) (jobPool st) ++ created /\
    jobIdCounter st' = jobIdCounter st + Z.of_nat (length created) /\
    _computeHistory st' = _computeHistory st.
Proof.
  intros Hun Hrnd. rewrite simulateDay_eq.
  set (st1 := mkState (jobPool st) (jobIdCounter st) (_computeHistory st) (S (drawn st))).
  set (count := Z.max 1 (incomingCount + Math_floor (rnd (drawn st) * 4) - 1)).
  destruct (generateRandomJobs_arrivals count today 7 20 st1 Hrnd ltac:(lia) ltac:(lia))
    as (created & st2 & E2 & Hlen & Hp & _ & Hctr & Hh & _ & Hall).
  rewrite E2, runScheduler_unrecognised by done.
  exists created. eexists. split; [done|].
  cbn [jobPool jobIdCounter _computeHistory].
  split; [lia|]. split; [|by rewrite Hctr, Hh].
  rewrite Hp, List.filter_app. f_equal.
  rewrite List.forallb_filter_id; [done|].
  apply List.forallb_forall. intros j Hj%list_elem_of_In.
  rewrite Forall_forall in Hall. destruct (Hall j Hj) as (_ & [Hdl _] & _).
  apply Qle_bool_iff. by rewrite <- Zle_Qle.
Qed.

(** ** [simulateMultipleDays], the history and the edges *)



(** X21: [simulateMultipleDays] checks the strategy only by running a day.
    For [days <= 0] it returns the empty sequence for any strategy name,
    known or not, leaving an empty pool, counter 1 and an empty history; for
    [days >= 1] and an unknown name it throws the error of [sortJobs] on the
    first day and returns no result. *)
Theorem simulateMultipleDays_edges days N strategy jobsPerDay st :
  (days <= 0 ->
   simulateMultipleDays days N strategy jobsPerDay st
   = (Return [], mkState [] 1 [] (drawn st))) /\
  (1 <= days -> ~ recognised strategy ->
   exists st',
     simulateMultipleDays days N strategy jobsPerDay st
     = (Throw (Error ("Unknown strategy: " +:+ dquote +:+ strategy +:+ dquote)), st')).
Proof.
  split.
  - intros Hdays. rewrite simulateMultipleDays_reset.
    by replace (Z.to_nat days) with 0%nat by lia.
  - intros Hdays Hun. rewrite simulateMultipleDays_reset.
    destruct (Z.to_nat days) as [|n] eqn:Hn; [lia|].
    cbn [simulateMultipleDays_loop]. unfold bind at 1.
    destruct (simulateDay_unrecognised (inject_Z 1) N strategy jobsPerDay
                (mkState [] 1 [] (drawn st)) Hun) as (st' & ->).
    eauto.
Qed.

(** X22: for [days <= 0], [compareStrategies] returns the three keys, each
    with an empty sequence, draws no random number and leaves an empty pool,
    counter 1 and an empty history. *)
Theorem compareStrategies_no_days days N jobs st :
  days <= 0 ->
  compareStrategies days N jobs st
  = (Return (<["random" := []]> (<["lcf" := []]> (<["edf" := []]> ∅))),
     mkState [] 1 [] (drawn st)).
Proof.
  intros Hdays. unfold compareStrategies. cbn [compareStrategies_loop].
  unfold bind at 1. rewrite simulateMultipleDays_reset.
  replace (Z.to_nat days) with 0%nat by lia.
  cbn [simulateMultipleDays_loop]. unfold ret at 1.
  unfold bind at 1. rewrite simulateMultipleDays_reset.
  replace (Z.to_nat days) with 0%nat by lia.
  cbn [simulateMultipleDays_loop]. unfold ret at 1.
  unfold bind at 1. rewrite simulateMultipleDays_reset.
  replace (Z.to_nat days) with 0%nat by lia.
  cbn [simulateMultipleDays_loop drawn]. done.
Qed.

End Engine.

(** * Concrete runs *)

Lemma zero_source_in_range : forall k : nat, (0 <= zero_source k)%Q /\ (zero_source k < 1)%Q.
Proof. intros k. split; [apply Qle_refl|reflexivity]. Defined.

Lemma fifo_not_recognised : ~ recognised "fifo".
Proof. intros [H|[H|H]]; discriminate H. Defined.

(** The worked example of the README: six jobs, day 5, batch size 3, ['edf']. *)
Example runScheduler_scenario :
  let pool :=
    [Job.mk 1 8 4 1; Job.mk 2 15 5 1; Job.mk 3 3 5 1;
     Job.mk 4 10 7 1; Job.mk 5 12 6 1; Job.mk 6 5 8 1] in
  runScheduler (fun _ => 0%Q) 5 3 "edf" [] (mkState pool 7 [] 0)
  = (Return
       (mkDayResult
          [Job.mk 3 3 5 1; Job.mk 2 15 5 1; Job.mk 5 12 6 1]
          [Job.mk 4 10 7 1; Job.mk 6 5 8 1]
          [Job.mk 1 8 4 1]
          30 2 0 5 "edf"),
     mkState [Job.mk 4 10 7 1; Job.mk 6 5 8 1] 7 [] 0).
Proof. vm_compute. reflexivity. Qed.

(** With every draw 0 the shuffle swaps each entry with the first. *)
Example sortJobs_random_zero_source :
  sortJobs zero_source [Job.mk 1 8 4 1; Job.mk 2 15 5 1; Job.mk 3 3 5 1] "random"
    initial_state
  = (Return [Job.mk 2 15 5 1; Job.mk 3 3 5 1; Job.mk 1 8 4 1], mkState [] 1 [] 2).
Proof. vm_compute. reflexivity. Qed.

(** The original wording of C2 fails: with one expired job in the pool and
    the unknown strategy name ['fifo'], [runScheduler] throws and the pool is
    not the one the call started from (the expired job is gone). *)
Lemma runScheduler_unknown_strategy_changes_pool :
  ~ recognised "fifo" /\
  exists e st',
    runScheduler zero_source 2 1 "fifo" [] (mkState [Job.mk 1 3 1 1] 2 [] 0)
    = (Throw e, st') /\
    jobPool st' <> jobPool (mkState [Job.mk 1 3 1 1] 2 [] 0).
Proof.
  split; [exact fifo_not_recognised|].
  eexists _, _. split; [vm_compute; reflexivity|]. simpl. discriminate.
Qed.

Lemma runScheduler_unknown_strategy_witness :
  ~ recognised "fifo" /\
  exists st',
    runScheduler zero_source 2 1 "fifo" [] (mkState [Job.mk 1 3 1 1] 2 [] 0)
    = (Throw (Error ("Unknown strategy: " +:+ dquote +:+ "fifo" +:+ dquote)), st') /\
    jobPool st' = [] /\ jobIdCounter st' = 2.
Proof.
  split; [exact fifo_not_recognised|].
  destruct (runScheduler_unknown_strategy zero_source 2 1 "fifo" []
              (mkState [Job.mk 1 3 1 1] 2 [] 0) fifo_not_recognised)
    as (st' & E & Hp & Hc & _).
  exists st'. split; [exact E|]. split; [exact Hp|exact Hc].
Defined.

Lemma addJob_failure_leaves_state_witness :
  ((0 <= 0)%Q \/ (5 < 1)%Q) /\
  exists e st',
    addJob 0 5 1 initial_state = (Throw e, st') /\ st' = initial_state.
Proof.
  assert ((0 <= 0)%Q \/ (5 < 1)%Q) as H by (left; apply Qle_refl).
  split; [exact H|].
  destruct (addJob_failure_leaves_state 0 5 1 initial_state H) as (e & st' & E & Hst & _).
  exists e, st'. split; [exact E|exact Hst].
Defined.

Lemma runScheduler_accounts_for_every_job_witness :
  NoDup (map Job.id [Job.mk 1 8 4 1; Job.mk 2 15 5 1; Job.mk 3 3 5 1]) /\
  recognised "random" /\
  exists r st',
    runScheduler zero_source 5 1 "random" []
      (mkState [Job.mk 1 8 4 1; Job.mk 2 15 5 1; Job.mk 3 3 5 1] 4 [] 0)
    = (Return r, st') /\
    map Job.id (selected r) ++ map Job.id (remaining r) ++ map Job.id (expired r)
      ≡ₚ [1; 2; 3].
Proof.
  assert (NoDup (map Job.id [Job.mk 1 8 4 1; Job.mk 2 15 5 1; Job.mk 3 3 5 1])) as Hnd.
  { simpl. apply (bool_decide_unpack (NoDup [1; 2; 3])). reflexivity. }
  assert (recognised "random") as Hrec by (right; right; reflexivity).
  split; [exact Hnd|]. split; [exact Hrec|].
  destruct (runScheduler_accounts_for_every_job zero_source 5 1 "random" []
              (mkState [Job.mk 1 8 4 1; Job.mk 2 15 5 1; Job.mk 3 3 5 1] 4 [] 0)
              Hnd Hrec) as (r & st' & E & _ & Hids & _).
  exists r, st'. split; [exact E|exact Hids].
Defined.

Lemma sortJobs_edf_order_witness :
  ({[ 0%nat := [Job.mk 1 15 5 1; Job.mk 2 3 5 1; Job.mk 3 8 4 1] ]}
     : gmap nat (list Job.t)) !! 0%nat
  = Some [Job.mk 1 15 5 1; Job.mk 2 3 5 1; Job.mk 3 8 4 1] /\
  exists copy h' l',
    sortJobs_ref zero_source
      {[ 0%nat := [Job.mk 1 15 5 1; Job.mk 2 3 5 1; Job.mk 3 8 4 1] ]} 0 "edf"
      initial_state
    = (Return (copy, h'), initial_state) /\
    copy <> 0%nat /\
    h' !! 0%nat = Some [Job.mk 1 15 5 1; Job.mk 2 3 5 1; Job.mk 3 8 4 1] /\
    h' !! copy = Some l' /\
    appears_before l' (Job.mk 3 8 4 1) (Job.mk 2 3 5 1) /\
    appears_before l' (Job.mk 2 3 5 1) (Job.mk 1 15 5 1).
Proof.
  assert (({[ 0%nat := [Job.mk 1 15 5 1; Job.mk 2 3 5 1; Job.mk 3 8 4 1] ]}
             : gmap nat (list Job.t)) !! 0%nat
          = Some [Job.mk 1 15 5 1; Job.mk 2 3 5 1; Job.mk 3 8 4 1]) as Hl
    by reflexivity.
  split; [exact Hl|].
  destruct (sortJobs_edf_order zero_source _ _ _ initial_state Hl)
    as (copy & h' & l' & E & _ & Hne & _ & Hjobs & _ & Hcopy & _ & Hord).
  exists copy, h', l'. split; [exact E|]. split; [exact Hne|].
  split; [exact Hjobs|]. split; [exact Hcopy|]. split; apply Hord; simpl; lia.
Defined.

Lemma simulateDay_arrival_count_witness :
  (forall k, (0 <= zero_source k)%Q /\ (zero_source k < 1)%Q) /\
  recognised "edf" /\
  exists r st',
    simulateDay zero_source 1 5 "edf" 5 initial_state = (Return r, st') /\
    Z.of_nat (length (incoming r)) = 4 /\
    Z.of_nat (length (incoming r)) <> 5 - 2.
Proof.
  assert (recognised "edf") as Hrec by (left; reflexivity).
  split; [exact zero_source_in_range|]. split; [exact Hrec|].
  destruct (simulateDay_arrival_count zero_source 1 5 "edf" 5 initial_state
              zero_source_in_range Hrec) as (r & st' & E & Hcount & _ & Hne).
  exists r, st'. split; [exact E|]. split; [exact Hcount|]. apply Hne. lia.
Defined.

Lemma job_ids_increase_within_lifetime_witness :
  addJob 3 5 1 initial_state
  = (Return (Job.mk 1 3 5 1), mkState [Job.mk 1 3 5 1] 2 [] 0) /\
  same_lifetime zero_source (mkState [Job.mk 1 3 5 1] 2 [] 0) (mkState [] 2 [] 0) /\
  addJob 4 9 7 (mkState [] 2 [] 0)
  = (Return (Job.mk 2 4 9 7), mkState [Job.mk 2 4 9 7] 3 [] 0) /\
  Job.id (Job.mk 1 3 5 1) < Job.id (Job.mk 2 4 9 7).
Proof.
  assert (addJob 3 5 1 initial_state
          = (Return (Job.mk 1 3 5 1), mkState [Job.mk 1 3 5 1] 2 [] 0)) as E1
    by reflexivity.
  assert (same_lifetime zero_source (mkState [Job.mk 1 3 5 1] 2 [] 0) (mkState [] 2 [] 0))
    as Hlife.
  { apply rtc_once.
    apply (step_removeExpiredJobs zero_source 7 _ (Return (Expiry.mk [] [Job.mk 1 3 5 1]))).
    reflexivity. }
  assert (addJob 4 9 7 (mkState [] 2 [] 0)
          = (Return (Job.mk 2 4 9 7), mkState [Job.mk 2 4 9 7] 3 [] 0)) as E2
    by reflexivity.
  split; [exact E1|]. split; [exact Hlife|]. split; [exact E2|].
  exact (proj1 (job_ids_increase_within_lifetime zero_source)
           _ _ _ _ _ _ _ _ _ _ _ _ E1 Hlife E2).
Defined.

Lemma calculateLoadVariance_double_formula_witness :
  (2 <= length [1; 2; 4]%float)%nat /\
  calculateLoadVariance_double [1; 2; 4]%float = spec_variance_double [1; 2; 4]%float /\
  spec_variance_double [1; 2; 4]%float = 0x1.8e38e38e38e38p+0%float.
Proof.
  assert (2 <= length [1; 2; 4]%float)%nat as H by (simpl; lia).
  split; [exact H|]. split.
  - exact (proj1 (proj2 calculateLoadVariance_double_formula) [1; 2; 4]%float H).
  - vm_compute. reflexivity.
Defined.

(** The original wording of C7 fails on the history [1, 2, 4]: its population
    variance is 14/9; the code returns the double 1.5555555555555554, which
    stands for 7005599420354104 / 2^52, is not 14/9 and is not the double
    nearest to 14/9 either (that one is [14 / 9], 1.5555555555555556). *)
Lemma calculateLoadVariance_double_not_population :
  (spec_population_variance [1; 2; 4] == 14 # 9)%Q /\
  calculateLoadVariance_double [1; 2; 4]%float = 0x1.8e38e38e38e38p+0%float /\
  double_value 0x1.8e38e38e38e38p+0 = Some (7005599420354104 # 4503599627370496) /\
  ~ (7005599420354104 # 4503599627370496 == 14 # 9)%Q /\
  calculateLoadVariance_double [1; 2; 4]%float <> (14 / 9)%float.
Proof.
  split; [reflexivity|]. split; [vm_compute; reflexivity|].
  split; [vm_compute; reflexivity|]. split.
  - intros H. vm_compute in H. discriminate H.
  - vm_compute. intros H. discriminate H.
Qed.

Lemma compareStrategies_three_runs_witness :
  1 <= 2 /\
  exists comparison st',
    compareStrategies zero_source 2 5 5 initial_state = (Return comparison, st') /\
    dom comparison = ({["edf"; "lcf"; "random"]} : gset string) /\
    size comparison = 3%nat.
Proof.
  assert (1 <= 2) as H by lia.
  split; [exact H|].
  destruct (compareStrategies_three_runs zero_source 2 5 5 initial_state H)
    as (comparison & st' & E & Hdom & Hsize & _).
  exists comparison, st'. split; [exact E|]. split; [exact Hdom|exact Hsize].
Defined.

(** * Concrete runs of the further properties *)

Lemma three_jobs_NoDup :
  NoDup (map Job.id [Job.mk 1 8 4 1; Job.mk 2 15 5 1; Job.mk 3 3 5 1]).
Proof. simpl. apply (bool_decide_unpack (NoDup [1; 2; 3])). reflexivity. Defined.

Lemma edf_recognised : recognised "edf".
Proof. left. reflexivity. Defined.

Lemma sortJobs_lcf_order_witness :
  exists l',
    sortJobs zero_source [Job.mk 1 8 4 1; Job.mk 2 15 5 1; Job.mk 3 3 5 1] "lcf"
      initial_state = (Return l', initial_state) /\
    appears_before l' (Job.mk 2 15 5 1) (Job.mk 1 8 4 1).
Proof.
  destruct (sortJobs_lcf_order zero_source
              [Job.mk 1 8 4 1; Job.mk 2 15 5 1; Job.mk 3 3 5 1] initial_state)
    as (l' & E & _ & Hord).
  exists l'. split; [exact E|]. apply Hord. left. reflexivity.
Defined.


Lemma sortJobs_ref_input_untouched_witness :
  ({[ 0%nat := [Job.mk 1 15 5 1; Job.mk 2 3 5 1] ]} : gmap nat (list Job.t)) !! 0%nat
  = Some [Job.mk 1 15 5 1; Job.mk 2 3 5 1] /\
  recognised "random" /\
  exists copy h' l' st',
    sortJobs_ref zero_source {[ 0%nat := [Job.mk 1 15 5 1; Job.mk 2 3 5 1] ]} 0 "random"
      initial_state = (Return (copy, h'), st') /\
    h' !! 0%nat = Some [Job.mk 1 15 5 1; Job.mk 2 3 5 1] /\
    h' !! copy = Some l'.
Proof.
  assert (({[ 0%nat := [Job.mk 1 15 5 1; Job.mk 2 3 5 1] ]}
             : gmap nat (list Job.t)) !! 0%nat
          = Some [Job.mk 1 15 5 1; Job.mk 2 3 5 1]) as Hl by reflexivity.
  assert (recognised "random") as Hrec by (right; right; reflexivity).
  split; [exact Hl|]. split; [exact Hrec|].
  destruct (sortJobs_ref_input_untouched zero_source _ _ _ "random" initial_state Hl Hrec)
    as (copy & h' & l' & st' & E & _ & _ & Hjobs & _ & Hcopy & _).
  exists copy, h', l', st'. split; [exact E|]. split; [exact Hjobs|exact Hcopy].
Defined.

Lemma getRemainingJobs_complement_witness :
  NoDup (map Job.id [Job.mk 1 8 4 1; Job.mk 2 15 5 1; Job.mk 3 3 5 1]) /\
  [Job.mk 2 15 5 1] ⊆+ [Job.mk 1 8 4 1; Job.mk 2 15 5 1; Job.mk 3 3 5 1] /\
  [Job.mk 2 15 5 1]
    ++ getRemainingJobs [Job.mk 1 8 4 1; Job.mk 2 15 5 1; Job.mk 3 3 5 1] [Job.mk 2 15 5 1]
  ≡ₚ [Job.mk 1 8 4 1; Job.mk 2 15 5 1; Job.mk 3 3 5 1].
Proof.
  assert ([Job.mk 2 15 5 1] ⊆+ [Job.mk 1 8 4 1; Job.mk 2 15 5 1; Job.mk 3 3 5 1]) as Hsub.
  { apply submseteq_cons, submseteq_skip, submseteq_nil_l. }
  split; [exact three_jobs_NoDup|]. split; [exact Hsub|].
  exact (getRemainingJobs_complement _ _ three_jobs_NoDup Hsub).
Defined.

Lemma runScheduler_conserves_compute_witness :
  NoDup (map Job.id [Job.mk 1 8 4 1; Job.mk 2 15 5 1; Job.mk 3 3 5 1]) /\
  Forall (fun j => 0 <= Job.compute j)
    [Job.mk 1 8 4 1; Job.mk 2 15 5 1; Job.mk 3 3 5 1] /\
  calculateTotalCompute [Job.mk 1 8 4 1; Job.mk 2 15 5 1; Job.mk 3 3 5 1] <= 2 ^ 53 /\
  recognised "edf" /\
  exists r st',
    runScheduler zero_source 5 1 "edf" []
      (mkState [Job.mk 1 8 4 1; Job.mk 2 15 5 1; Job.mk 3 3 5 1] 4 [] 0)
    = (Return r, st') /\
    totalCompute r + calculateTotalCompute (jobPool st')
      + calculateTotalCompute (expired r) = 26.
Proof.
  assert (Forall (fun j => 0 <= Job.compute j)
            [Job.mk 1 8 4 1; Job.mk 2 15 5 1; Job.mk 3 3 5 1]) as Hpos.
  { repeat constructor; simpl; lia. }
  assert (calculateTotalCompute [Job.mk 1 8 4 1; Job.mk 2 15 5 1; Job.mk 3 3 5 1]
          <= 2 ^ 53) as Hmax.
  { vm_compute. discriminate. }
  split; [exact three_jobs_NoDup|]. split; [exact Hpos|]. split; [exact Hmax|].
  split; [exact edf_recognised|].
  destruct (runScheduler_conserves_compute zero_source 5 1 "edf" []
              (mkState [Job.mk 1 8 4 1; Job.mk 2 15 5 1; Job.mk 3 3 5 1] 4 [] 0)
              three_jobs_NoDup Hpos Hmax edf_recognised) as (r & st' & E & Hsum & _).
  exists r, st'. split; [exact E|exact Hsum].
Defined.

Lemma runScheduler_selects_live_jobs_witness :
  recognised "edf" /\
  exists r st',
    runScheduler zero_source 5 1 "edf" []
      (mkState [Job.mk 1 8 4 1; Job.mk 2 15 5 1; Job.mk 3 3 5 1] 4 [] 0)
    = (Return r, st') /\
    length (selected r) = 1%nat /\
    Forall (fun j => j ∈ [Job.mk 1 8 4 1; Job.mk 2 15 5 1; Job.mk 3 3 5 1] /\
                     (5 <= inject_Z (Job.deadline j))%Q) (selected r).
Proof.
  split; [exact edf_recognised|].
  destruct (runScheduler_selects_live_jobs zero_source 5 1 "edf" []
              (mkState [Job.mk 1 8 4 1; Job.mk 2 15 5 1; Job.mk 3 3 5 1] 4 [] 0)
              edf_recognised) as (r & st' & E & Hsel & Hlen & _).
  exists r, st'. split; [exact E|]. split; [exact Hlen|exact Hsel].
Defined.

Lemma runScheduler_edf_most_urgent_witness :
  NoDup (map Job.id [Job.mk 1 8 4 1; Job.mk 2 15 5 1; Job.mk 3 3 5 1]) /\
  exists r st',
    runScheduler zero_source 4 1 "edf" []
      (mkState [Job.mk 1 8 4 1; Job.mk 2 15 5 1; Job.mk 3 3 5 1] 4 [] 0)
    = (Return r, st') /\
    forall a b, a ∈ selected r -> b ∈ remaining r ->
      Job.deadline a < Job.deadline b \/
      (Job.deadline a = Job.deadline b /\ Job.compute a <= Job.compute b).
Proof.
  split; [exact three_jobs_NoDup|].
  exact (runScheduler_edf_most_urgent zero_source 4 1 []
           (mkState [Job.mk 1 8 4 1; Job.mk 2 15 5 1; Job.mk 3 3 5 1] 4 [] 0)
           three_jobs_NoDup).
Defined.

Lemma runScheduler_lcf_largest_witness :
  NoDup (map Job.id [Job.mk 1 8 4 1; Job.mk 2 15 5 1; Job.mk 3 3 5 1]) /\
  exists r st',
    runScheduler zero_source 4 1 "lcf" []
      (mkState [Job.mk 1 8 4 1; Job.mk 2 15 5 1; Job.mk 3 3 5 1] 4 [] 0)
    = (Return r, st') /\
    forall a b, a ∈ selected r -> b ∈ remaining r ->
      Job.compute b < Job.compute a \/
      (Job.compute a = Job.compute b /\ Job.deadline a <= Job.deadline b).
Proof.
  split; [exact three_jobs_NoDup|].
  exact (runScheduler_lcf_largest zero_source 4 1 []
           (mkState [Job.mk 1 8 4 1; Job.mk 2 15 5 1; Job.mk 3 3 5 1] 4 [] 0)
           three_jobs_NoDup).
Defined.

Lemma runScheduler_nothing_selected_witness :
  recognised "edf" /\
  (0 <= 0 \/ jobPool (mkState [Job.mk 1 8 4 1] 2 [] 0) = []) /\
  exists r st',
    runScheduler zero_source 4 0 "edf" [] (mkState [Job.mk 1 8 4 1] 2 [] 0)
    = (Return r, st') /\
    selected r = [] /\ totalCompute r = 0.
Proof.
  assert (0 <= 0 \/ jobPool (mkState [Job.mk 1 8 4 1] 2 [] 0) = []) as H
    by (left; lia).
  split; [exact edf_recognised|]. split; [exact H|].
  destruct (runScheduler_nothing_selected zero_source 4 0 "edf" []
              (mkState [Job.mk 1 8 4 1] 2 [] 0) edf_recognised H)
    as (r & st' & E & Hsel & Htot & _).
  exists r, st'. split; [exact E|]. split; [exact Hsel|exact Htot].
Defined.

Lemma removeExpiredJobs_later_day_witness :
  (2 <= 5)%Q /\
  exists r1 st1 r2 st2,
    removeExpiredJobs 2 (mkState [Job.mk 1 8 1 1; Job.mk 2 15 4 1; Job.mk 3 3 5 1] 4 [] 0)
    = (Return r1, st1) /\
    removeExpiredJobs 5 st1 = (Return r2, st2) /\
    removeExpiredJobs 5 (mkState [Job.mk 1 8 1 1; Job.mk 2 15 4 1; Job.mk 3 3 5 1] 4 [] 0)
    = (Return (Expiry.mk (Expiry.remaining r2) [Job.mk 1 8 1 1; Job.mk 2 15 4 1]), st2).
Proof.
  assert (2 <= 5)%Q as H by discriminate.
  split; [exact H|].
  destruct (removeExpiredJobs_later_day 2 5
              (mkState [Job.mk 1 8 1 1; Job.mk 2 15 4 1; Job.mk 3 3 5 1] 4 [] 0) H)
    as (r1 & st1 & r2 & st2 & r & st' & E1 & E2 & E & Hst & Hrem & _).
  exists r1, st1, r2, st2. split; [exact E1|]. split; [exact E2|].
  rewrite E, Hst, Hrem. f_equal. f_equal.
  rewrite removeExpiredJobs_eq in E. by injection E as <- _.
Defined.

Lemma addJob_survives_expiry_witness :
  addJob 3 (inject_Z 5) 5 initial_state
  = (Return (Job.mk 1 3 5 5), mkState [Job.mk 1 3 5 5] 2 [] 0) /\
  (5 <= inject_Z 5)%Q /\
  exists r st2,
    removeExpiredJobs 5 (mkState [Job.mk 1 3 5 5] 2 [] 0) = (Return r, st2) /\
    Job.mk 1 3 5 5 ∈ Expiry.remaining r.
Proof.
  assert (addJob 3 (inject_Z 5) 5 initial_state
          = (Return (Job.mk 1 3 5 5), mkState [Job.mk 1 3 5 5] 2 [] 0)) as E
    by reflexivity.
  assert (5 <= inject_Z 5)%Q as H by discriminate.
  split; [exact E|]. split; [exact H|].
  destruct (addJob_survives_expiry 3 5 5 initial_state _ _ 5 E H)
    as (_ & r & st2 & E2 & Hin & _).
  exists r, st2. split; [exact E2|exact Hin].
Defined.

Lemma pool_in_admission_order_witness :
  jobPool initial_state = [] /\
  same_lifetime zero_source initial_state
    (mkState [Job.mk 2 15 5 1; Job.mk 3 3 5 1; Job.mk 4 6 9 2] 5 [] 0) /\
  StronglySorted Z.lt [2; 3; 4] /\
  NoDup [2; 3; 4] /\
  Forall (fun i => i < 5) [2; 3; 4] /\
  1 <= 5.
Proof.
  assert (same_lifetime zero_source initial_state
            (mkState [Job.mk 2 15 5 1; Job.mk 3 3 5 1; Job.mk 4 6 9 2] 5 [] 0))
    as Hlife.
  { eapply rtc_l.
    { apply (step_addJob zero_source 8 4 1 initial_state (Return (Job.mk 1 8 4 1))
               (mkState [Job.mk 1 8 4 1] 2 [] 0)). reflexivity. }
    eapply rtc_l.
    { apply (step_addJob zero_source 15 5 1 _ (Return (Job.mk 2 15 5 1))
               (mkState [Job.mk 1 8 4 1; Job.mk 2 15 5 1] 3 [] 0)). reflexivity. }
    eapply rtc_l.
    { apply (step_addJob zero_source 3 5 1 _ (Return (Job.mk 3 3 5 1))
               (mkState [Job.mk 1 8 4 1; Job.mk 2 15 5 1; Job.mk 3 3 5 1] 4 [] 0)).
      reflexivity. }
    eapply rtc_l.
    { apply (step_runScheduler zero_source 1 1 "edf" []
               (mkState [Job.mk 1 8 4 1; Job.mk 2 15 5 1; Job.mk 3 3 5 1] 4 [] 0)
               (fst (runScheduler zero_source 1 1 "edf" []
                       (mkState [Job.mk 1 8 4 1; Job.mk 2 15 5 1; Job.mk 3 3 5 1]
                          4 [] 0)))
               (mkState [Job.mk 2 15 5 1; Job.mk 3 3 5 1] 4 [] 0)).
      vm_compute. reflexivity. }
    apply rtc_once.
    apply (step_addJob zero_source 6 9 2 _ (Return (Job.mk 4 6 9 2))). reflexivity. }
  split; [reflexivity|]. split; [exact Hlife|].
  exact (pool_in_admission_order zero_source initial_state _ eq_refl Hlife).
Defined.

Lemma generateRandomJobs_arrivals_witness :
  (forall k, (0 <= zero_source k)%Q /\ (zero_source k < 1)%Q) /\
  0 < 7 /\ 0 < 20 /\
  exists created st',
    generateRandomJobs zero_source 3 (inject_Z 4) 7 20 initial_state
    = (Return created, st') /\
    length created = 3%nat /\
    jobIdCounter st' = 1 + Z.of_nat (length created).
Proof.
  assert (0 < 7) as H7 by lia. assert (0 < 20) as H20 by lia.
  split; [exact zero_source_in_range|]. split; [exact H7|]. split; [exact H20|].
  destruct (generateRandomJobs_arrivals zero_source 3 4 7 20 initial_state
              zero_source_in_range H7 H20)
    as (created & st' & E & Hlen & _ & _ & Hctr & _).
  exists created, st'. split; [exact E|]. split; [exact Hlen|exact Hctr].
Defined.

Lemma injectWorstCaseTomorrow_eleven_jobs_witness :
  (forall k, (0 <= zero_source k)%Q /\ (zero_source k < 1)%Q) /\
  exists injected st',
    injectWorstCaseTomorrow zero_source (inject_Z 10) initial_state
    = (Return injected, st') /\
    length injected = 11%nat /\
    jobIdCounter st' = 1 + 11.
Proof.
  split; [exact zero_source_in_range|].
  destruct (injectWorstCaseTomorrow_eleven_jobs zero_source 10 initial_state
              zero_source_in_range)
    as (injected & st' & E & Hlen & _ & _ & _ & _ & _ & Hctr & _).
  exists injected, st'. split; [exact E|]. split; [exact Hlen|exact Hctr].
Defined.


Lemma simulateDay_arrivals_not_expired_witness :
  pool_ok initial_state /\
  (forall k, (0 <= zero_source k)%Q /\ (zero_source k < 1)%Q) /\
  recognised "edf" /\
  exists r st',
    simulateDay zero_source (inject_Z 1) 2 "edf" 5 initial_state = (Return r, st') /\
    Forall (fun j => (j ∉ expired (result r)) /\
                     (j ∈ selected (result r) \/ j ∈ remaining (result r)))
      (incoming r).
Proof.
  assert (pool_ok initial_state) as Hok by (split; simpl; constructor).
  split; [exact Hok|]. split; [exact zero_source_in_range|].
  split; [exact edf_recognised|].
  exact (simulateDay_arrivals_not_expired zero_source 1 2 "edf" 5 initial_state
           Hok zero_source_in_range edf_recognised).
Defined.

Lemma simulateDay_unknown_strategy_witness :
  ~ recognised "fifo" /\
  (forall k, (0 <= zero_source k)%Q /\ (zero_source k < 1)%Q) /\
  exists (created : list Job.t) st',
    simulateDay zero_source (inject_Z 1) 2 "fifo" 5 initial_state
    = (Throw (Error ("Unknown strategy: " +:+ dquote +:+ "fifo" +:+ dquote)), st') /\
    Z.of_nat (length created) = 4 /\
    jobIdCounter st' = 1 + Z.of_nat (length created).
Proof.
  split; [exact fifo_not_recognised|]. split; [exact zero_source_in_range|].
  destruct (simulateDay_unknown_strategy zero_source 1 2 "fifo" 5 initial_state
              fifo_not_recognised zero_source_in_range)
    as (created & st' & E & Hlen & _ & Hctr & _).
  exists created, st'. split; [exact E|]. split; [exact Hlen|exact Hctr].
Defined.


Lemma simulateMultipleDays_edges_witness :
  0 <= 0 /\
  simulateMultipleDays zero_source 0 2 "fifo" 5 (mkState [Job.mk 7 3 5 1] 8 [4%Q] 0)
  = (Return [], mkState [] 1 [] 0) /\
  1 <= 2 /\ ~ recognised "fifo" /\
  exists st',
    simulateMultipleDays zero_source 2 2 "fifo" 5 initial_state
    = (Throw (Error ("Unknown strategy: " +:+ dquote +:+ "fifo" +:+ dquote)), st').
Proof.
  assert (0 <= 0) as H0 by lia. assert (1 <= 2) as H1 by lia.
  split; [exact H0|]. split.
  { exact (proj1 (simulateMultipleDays_edges zero_source 0 2 "fifo" 5
                    (mkState [Job.mk 7 3 5 1] 8 [4%Q] 0)) H0). }
  split; [exact H1|]. split; [exact fifo_not_recognised|].
  exact (proj2 (simulateMultipleDays_edges zero_source 2 2 "fifo" 5 initial_state)
           H1 fifo_not_recognised).
Defined.

Lemma compareStrategies_no_days_witness :
  0 <= 0 /\
  compareStrategies zero_source 0 5 5 (mkState [Job.mk 7 3 5 1] 8 [4%Q] 3)
  = (Return (<["random" := []]> (<["lcf" := []]> (<["edf" := []]> ∅))),
     mkState [] 1 [] 3).
Proof.
  assert (0 <= 0) as H0 by lia.
  split; [exact H0|].
  exact (compareStrategies_no_days zero_source 0 5 5
           (mkState [Job.mk 7 3 5 1] 8 [4%Q] 3) H0).
Defined.

(** * The C port *)

Module CPortFacts.
Import CPort.

(** ** Writing into the middle of an array *)

Lemma insert_middle (pre post : list Job) (x y : Job) (k : nat) :
  length pre = k -> <[k := x]> (pre ++ y :: post) = pre ++ x :: post.
Proof. intros <-. by rewrite insert_app_r_alt, Nat.sub_diag by lia. Qed.

Lemma lookup_total_middle (pre post : list Job) (y : Job) (k : nat) :
  length pre = k -> (pre ++ y :: post) !!! k = y.
Proof. intros <-. by apply list_lookup_total_middle. Qed.

Lemma copy_in_spec (n : nat) (pre junk post : list Job) (src : list Job) (from : nat) :
  length junk = n ->
  (from + length pre + n <= length src)%nat ->
  copy_in n (length pre) src from (pre ++ junk ++ post)
  = pre ++ cells src (from + length pre) n ++ post.
Proof.
  revert pre junk. induction n as [|n IH]; intros pre junk Hlen Hsrc.
  - destruct junk; [|done]. unfold cells. by rewrite take_0.
  - destruct junk as [|y junk]; [done|]. cbn [copy_in app].
    rewrite insert_middle by done.
    replace (pre ++ src !!! (from + length pre)%nat :: junk ++ post)
      with ((pre ++ [src !!! (from + length pre)%nat]) ++ junk ++ post)
      by (by rewrite <- (assoc_L (++))).
    replace (S (length pre)) with (length (pre ++ [src !!! (from + length pre)%nat]))
      by (rewrite length_app; simpl; lia).
    rewrite IH; [|simpl in Hlen; lia|rewrite length_app; simpl; lia].
    rewrite <- (assoc_L (++)). f_equal. simpl. f_equal.
    unfold cells. rewrite length_app. simpl.
    destruct (lookup_lt_is_Some_2 src (from + length pre)) as [x Hx]; [lia|].
    rewrite (list_lookup_total_correct _ _ _ Hx).
    rewrite (drop_S _ _ _ Hx). simpl.
    by replace (from + (length pre + 1))%nat with (S (from + length pre)) by lia.
Qed.

Lemma copy_in_local (arr : list Job) (from n : nat) :
  (from + n <= length arr)%nat ->
  copy_in n 0 arr from (replicate n inhabitant) = cells arr from n.
Proof.
  intros Hlen.
  pose proof (copy_in_spec n [] (replicate n inhabitant) [] arr from) as H.
  simpl in H. rewrite !app_nil_r, Nat.add_0_r in H. apply H.
  - by rewrite length_replicate.
  - lia.
Qed.

(** ** The order and the merge of two lists *)

Lemma left_first_true a b : left_first a b = true -> before a b.
Proof.
  unfold left_first, before.
  destruct (Z.ltb_spec (deadline a) (deadline b)); [lia|].
  destruct (Z.gtb_spec (deadline a) (deadline b)); [done|].
  destruct (Z.leb_spec (compute a) (compute b)); [lia|done].
Qed.

Lemma left_first_false a b : left_first a b = false -> before b a.
Proof.
  unfold left_first, before.
  destruct (Z.ltb_spec (deadline a) (deadline b)); [done|].
  destruct (Z.gtb_spec (deadline a) (deadline b)); [lia|].
  destruct (Z.leb_spec (compute a) (compute b)); [done|lia].
Qed.

Lemma before_trans a b c : before a b -> before b c -> before a c.
Proof. unfold before. lia. Qed.

Lemma merged_nil_l (l : list Job) : merged [] l = l.
Proof. by destruct l. Qed.

Lemma merged_nil_r (l : list Job) : merged l [] = l.
Proof. by destruct l. Qed.

Lemma merged_cons a b (l1 l2 : list Job) :
  merged (a :: l1) (b :: l2)
  = if left_first a b then a :: merged l1 (b :: l2) else b :: merged (a :: l1) l2.
Proof. reflexivity. Qed.

Lemma merged_Permutation (l1 l2 : list Job) : merged l1 l2 ≡ₚ l1 ++ l2.
Proof.
  revert l2. induction l1 as [|a l1 IH1]; intros l2; [by rewrite merged_nil_l|].
  induction l2 as [|b l2 IH2]; [by rewrite merged_nil_r, app_nil_r|].
  rewrite merged_cons. destruct (left_first a b).
  - by rewrite IH1.
  - rewrite IH2. apply (Permutation_middle (a :: l1) l2 b).
Qed.

Lemma merged_sorted (l1 l2 : list Job) :
  StronglySorted before l1 -> StronglySorted before l2 ->
  StronglySorted before (merged l1 l2).
Proof.
  revert l2. induction l1 as [|a l1 IH1]; intros l2 H1 H2; [by rewrite merged_nil_l|].
  induction l2 as [|b l2 IH2]; [by rewrite merged_nil_r|].
  apply StronglySorted_inv in H1 as [H1 Ha]. apply StronglySorted_inv in H2 as [H2 Hb].
  rewrite merged_cons. destruct (left_first a b) eqn:E.
  - apply left_first_true in E. constructor.
    + apply IH1; [done|by constructor].
    + rewrite merged_Permutation. apply Forall_app. split; [done|].
      constructor; [done|]. eapply Forall_impl; [exact Hb|].
      intros c Hc. by eapply before_trans.
  - apply left_first_false in E. constructor.
    + apply IH2; done.
    + rewrite merged_Permutation. apply Forall_app. split; [|done].
      constructor; [done|]. eapply Forall_impl; [exact Ha|].
      intros c Hc. by eapply before_trans.
Qed.

(** ** The loops of [merge] *)

(** The three-way test of the loop and [left_first] agree. *)
Lemma merge_while_step (fuel : nat) (L R : list Job) (n1 n2 i j k : nat) (arr : list Job) :
  (i < n1)%nat -> (j < n2)%nat ->
  merge_while (S fuel) L R n1 n2 i j k arr
  = if left_first (L !!! i) (R !!! j)
    then merge_while fuel L R n1 n2 (S i) j (S k) (<[k := L !!! i]> arr)
    else merge_while fuel L R n1 n2 i (S j) (S k) (<[k := R !!! j]> arr).
Proof.
  intros Hi Hj. cbn [merge_while].
  destruct (Nat.ltb_spec i n1); [|lia]. destruct (Nat.ltb_spec j n2); [|lia].
  cbn [andb]. unfold left_first.
  destruct (deadline (L !!! i) <? deadline (R !!! j)); [done|].
  destruct (deadline (L !!! i) >? deadline (R !!! j)); [done|].
  by destruct (compute (L !!! i) <=? compute (R !!! j)).
Qed.

Lemma merge_while_done (fuel : nat) (L R : list Job) (n1 n2 i j k : nat) (arr : list Job) :
  (n1 <= i)%nat \/ (n2 <= j)%nat ->
  merge_while fuel L R n1 n2 i j k arr = (i, j, k, arr).
Proof.
  intros H. destruct fuel; [done|]. cbn [merge_while].
  destruct (Nat.ltb_spec i n1); destruct (Nat.ltb_spec j n2); try done; lia.
Qed.

Lemma drop_lookup_total (l : list Job) (i : nat) :
  (i < length l)%nat -> drop i l = l !!! i :: drop (S i) l.
Proof.
  intros Hi. destruct (lookup_lt_is_Some_2 l i Hi) as [x Hx].
  by rewrite (list_lookup_total_correct _ _ _ Hx), (drop_S _ _ _ Hx).
Qed.

Lemma merge_while_spec (fuel : nat) (L R : list Job) (i j : nat)
    (pre junk post : list Job) :
  (i <= length L)%nat -> (j <= length R)%nat ->
  ((length L - i) + (length R - j) <= fuel)%nat ->
  length junk = ((length L - i) + (length R - j))%nat ->
  exists i' j' W junk',
    merge_while fuel L R (length L) (length R) i j (length pre) (pre ++ junk ++ post)
    = (i', j', length (pre ++ W), pre ++ W ++ junk' ++ post) /\
    (i' = length L \/ j' = length R) /\
    (i' <= length L)%nat /\ (j' <= length R)%nat /\
    length junk' = ((length L - i') + (length R - j'))%nat /\
    W ++ merged (drop i' L) (drop j' R) = merged (drop i L) (drop j R).
Proof.
  revert i j pre junk. induction fuel as [|fuel IH]; intros i j pre junk Hi Hj Hfuel Hjunk.
  - exists i, j, [], junk. rewrite !app_nil_r. simpl.
    split; [done|]. split; [lia|]. split; [done|]. split; [done|]. split; [done|done].
  - destruct (decide (i < length L /\ j < length R)%nat) as [[Hi' Hj']|Hdone].
    + rewrite merge_while_step by done.
      destruct junk as [|y junk]; [simpl in Hjunk; lia|]. cbn [app].
      rewrite !insert_middle by done.
      rewrite (drop_lookup_total L i Hi'), (drop_lookup_total R j Hj'), merged_cons.
      destruct (left_first (L !!! i) (R !!! j)).
      * replace (pre ++ L !!! i :: junk ++ post)
          with ((pre ++ [L !!! i]) ++ junk ++ post) by (by rewrite <- (assoc_L (++))).
        replace (S (length pre)) with (length (pre ++ [L !!! i]))
          by (rewrite length_app; simpl; lia).
        destruct (IH (S i) j (pre ++ [L !!! i]) junk)
          as (i' & j' & W & junk' & -> & Hor & Hi2 & Hj2 & Hjunk' & HW);
          [lia|lia|lia|simpl in Hjunk; lia|].
        exists i', j', (L !!! i :: W), junk'.
        rewrite <- !(assoc_L (++)). cbn [app].
        split; [done|]. split; [done|]. split; [done|]. split; [done|].
        split; [done|]. f_equal. rewrite HW.
        by rewrite <- (drop_lookup_total R j Hj').
      * replace (pre ++ R !!! j :: junk ++ post)
          with ((pre ++ [R !!! j]) ++ junk ++ post) by (by rewrite <- (assoc_L (++))).
        replace (S (length pre)) with (length (pre ++ [R !!! j]))
          by (rewrite length_app; simpl; lia).
        destruct (IH i (S j) (pre ++ [R !!! j]) junk)
          as (i' & j' & W & junk' & -> & Hor & Hi2 & Hj2 & Hjunk' & HW);
          [lia|lia|lia|simpl in Hjunk; lia|].
        exists i', j', (R !!! j :: W), junk'.
        rewrite <- !(assoc_L (++)). cbn [app].
        split; [done|]. split; [done|]. split; [done|]. split; [done|].
        split; [done|]. f_equal. rewrite HW.
        by rewrite <- (drop_lookup_total L i Hi').
    + rewrite merge_while_done by lia.
      exists i, j, [], junk. rewrite !app_nil_r. simpl.
      split; [done|]. split; [lia|]. split; [done|]. split; [done|]. split; [done|done].
Qed.

Lemma copy_out_spec (fuel : nat) (src : list Job) (i : nat) (pre junk post : list Job) :
  (i <= length src)%nat ->
  (length src - i <= fuel)%nat ->
  length junk = (length src - i)%nat ->
  copy_out fuel src (length src) i (length pre) (pre ++ junk ++ post)
  = (length (pre ++ drop i src), pre ++ drop i src ++ post).
Proof.
  revert i pre junk. induction fuel as [|fuel IH]; intros i pre junk Hi Hfuel Hjunk.
  - rewrite drop_ge by lia. destruct junk; [|simpl in Hjunk; lia].
    by rewrite app_nil_r.
  - cbn [copy_out]. destruct (Nat.ltb_spec i (length src)) as [Hlt|Hge].
    + destruct junk as [|y junk]; [simpl in Hjunk; lia|]. cbn [app].
      rewrite insert_middle by done.
      replace (pre ++ src !!! i :: junk ++ post)
        with ((pre ++ [src !!! i]) ++ junk ++ post) by (by rewrite <- (assoc_L (++))).
      replace (S (length pre)) with (length (pre ++ [src !!! i]))
        by (rewrite length_app; simpl; lia).
      rewrite IH; [|lia|lia|simpl in Hjunk; lia].
      rewrite (drop_lookup_total src i Hlt), <- !(assoc_L (++)). done.
    + rewrite drop_ge by lia. destruct junk; [|simpl in Hjunk; lia].
      by rewrite app_nil_r.
Qed.

Lemma cells_middle (A S B : list Job) (from n : nat) :
  length A = from -> length S = n -> cells (A ++ S ++ B) from n = S.
Proof.
  intros <- <-. unfold cells. rewrite drop_app_length. by rewrite take_app_length.
Qed.

(** [merge] on an array whose cells [left .. mid] hold [S1] and whose cells
    [mid + 1 .. right] hold [S2] leaves their merge in [left .. right] and
    every other cell as it was. *)
Lemma merge_spec (A S1 S2 B : list Job) (left mid right : nat) :
  length A = left ->
  length S1 = (mid - left + 1)%nat ->
  length S2 = (right - mid)%nat ->
  (left <= mid)%nat ->
  merge (A ++ S1 ++ S2 ++ B) left mid right = A ++ merged S1 S2 ++ B.
Proof.
  intros HA H1 H2 Hlm. unfold merge.
  assert (copy_in (mid - left + 1) 0 (A ++ S1 ++ S2 ++ B) left
            (replicate (mid - left + 1) inhabitant) = S1) as ->.
  { rewrite copy_in_local; [|rewrite !length_app; lia].
    by apply cells_middle. }
  assert (copy_in (right - mid) 0 (A ++ S1 ++ S2 ++ B) (mid + 1)
            (replicate (right - mid) inhabitant) = S2) as ->.
  { rewrite copy_in_local; [|rewrite !length_app; lia].
    rewrite (assoc_L (++) A S1). apply cells_middle; [rewrite length_app; lia|done]. }
  rewrite <- H1, <- H2, <- HA.
  replace (A ++ S1 ++ S2 ++ B) with (A ++ (S1 ++ S2) ++ B)
    by (by rewrite <- (assoc_L (++))).
  destruct (merge_while_spec (length S1 + length S2) S1 S2 0 0 A (S1 ++ S2) B)
    as (i' & j' & W & junk' & -> & Hor & Hi & Hj & Hjunk & HW);
    [lia|lia|lia|rewrite length_app; lia|].
  rewrite !drop_0 in HW.
  replace (A ++ W ++ junk' ++ B)
    with ((A ++ W) ++ take (length S1 - i') junk' ++ (drop (length S1 - i') junk' ++ B)).
  2:{ rewrite <- !(assoc_L (++)). f_equal. f_equal.
      by rewrite (assoc_L (++)), take_drop. }
  rewrite copy_out_spec; [|lia|lia|rewrite length_take; lia].
  replace ((A ++ W) ++ drop i' S1 ++ drop (length S1 - i') junk' ++ B)
    with (((A ++ W) ++ drop i' S1) ++ drop (length S1 - i') junk' ++ B)
    by (by rewrite <- !(assoc_L (++))).
  rewrite copy_out_spec; [|lia|lia|rewrite length_drop; lia].
  cbn [snd]. rewrite <- HW, <- !(assoc_L (++)). do 2 f_equal.
  destruct Hor as [-> | ->].
  - by rewrite drop_all, merged_nil_l.
  - by rewrite drop_all, merged_nil_r.
Qed.

(** ** [mergeSort] *)

Lemma mergeSort_rec_small (fuel : nat) (arr : list Job) (left right : Z) :
  right <= left -> mergeSort_rec fuel arr left right = arr.
Proof.
  intros H. destruct fuel; [done|]. cbn [mergeSort_rec].
  by destruct (Z.ltb_spec left right); [lia|].
Qed.

(** Enough fuel: a range of [right - left + 1] cells is sorted with any
    fuel not below its size. *)
Lemma mergeSort_rec_fuel (fuel : nat) (A S B : list Job) (left right : Z) :
  0 <= left -> left <= right ->
  Z.of_nat (length A) = left ->
  Z.of_nat (length S) = right - left + 1 ->
  right - left + 1 <= Z.of_nat fuel ->
  exists S',
    mergeSort_rec fuel (A ++ S ++ B) left right = A ++ S' ++ B /\
    S' ≡ₚ S /\ StronglySorted before S'.
Proof.
  revert A S B left right.
  induction fuel as [|fuel IH]; intros A S B left right H0 Hlr HA HS Hfuel; [lia|].
  cbn [mergeSort_rec]. destruct (Z.ltb_spec left right) as [Hlt|Hge].
  - set (mid := Z.quot (left + right) 2).
    assert (left <= mid < right) as Hmid.
    { unfold mid. rewrite Z.quot_div_nonneg by lia.
      split; [apply Z.div_le_lower_bound; lia|apply Z.div_lt_upper_bound; lia]. }
    set (n1 := Z.to_nat (mid - left + 1)).
    assert (S = take n1 S ++ drop n1 S) as HSs by (by rewrite take_drop).
    rewrite HSs, <- (assoc_L (++)).
    destruct (IH A (take n1 S) (drop n1 S ++ B) left mid)
      as (S1 & -> & Hp1 & Hs1); [lia|lia|done|rewrite length_take; lia|lia|].
    replace (A ++ S1 ++ drop n1 S ++ B) with ((A ++ S1) ++ drop n1 S ++ B)
      by (by rewrite <- (assoc_L (++))).
    destruct (IH (A ++ S1) (drop n1 S) B (mid + 1) right)
      as (S2 & -> & Hp2 & Hs2);
      [lia|lia|rewrite length_app, Hp1, length_take; lia
      |rewrite length_drop; lia|lia|].
    rewrite <- (assoc_L (++)).
    rewrite merge_spec;
      [|lia|rewrite Hp1, length_take; lia|rewrite Hp2, length_drop; lia|lia].
    exists (merged S1 S2). split; [done|]. split.
    + by rewrite merged_Permutation, Hp1, Hp2, take_drop.
    + by apply merged_sorted.
  - assert (left = right) as -> by lia.
    exists S. split; [done|]. split; [done|].
    destruct S as [|x [|y S]]; simpl in HS; try lia. repeat constructor.
Qed.

Lemma cells_S (arr : list Job) (i n : nat) :
  (i < length arr)%nat -> cells arr i (S n) = arr !!! i :: cells arr (S i) n.
Proof. intros Hi. unfold cells. by rewrite (drop_lookup_total arr i Hi). Qed.

Lemma cells_length (arr : list Job) (i n : nat) :
  (i + n <= length arr)%nat -> length (cells arr i n) = n.
Proof. intros H. unfold cells. rewrite length_take, length_drop. lia. Qed.

(** X23: [mergeSort(arr, left, right)] with [0 <= left] and [right] inside
    the array (and below 2^30, so that [left + right] is an [int]) sorts the
    cells [left .. right]: afterwards they hold the same jobs ordered by
    deadline, and by compute among equal deadlines; every cell outside the
    range is as before, and for [right <= left] (the call with [right = -1]
    on an empty array included) nothing changes. *)
Theorem c_mergeSort_sorts (arr : list Job) (left right : Z) :
  0 <= left -> right < Z.of_nat (length arr) -> right < 2 ^ 30 ->
  exists S',
    mergeSort arr left right
    = take (Z.to_nat left) arr ++ S'
        ++ drop (Z.to_nat left + Z.to_nat (right - left + 1)) arr /\
    S' ≡ₚ cells arr (Z.to_nat left) (Z.to_nat (right - left + 1)) /\
    StronglySorted before S' /\
    (right <= left -> mergeSort arr left right = arr).
Proof.
  intros H0 Hr _. unfold mergeSort.
  set (n := Z.to_nat (right - left + 1)). set (l := Z.to_nat left).
  destruct (Z.le_gt_cases left right) as [Hle|Hgt].
  - assert (arr = take l arr ++ cells arr l n ++ drop (l + n) arr) as Harr.
    { unfold cells. rewrite (assoc_L (++)), take_take_drop, take_drop. done. }
    destruct (mergeSort_rec_fuel n (take l arr) (cells arr l n) (drop (l + n) arr)
                left right) as (S' & E & Hp & Hs);
      [lia|lia|rewrite length_take; lia|rewrite cells_length; lia|lia|].
    rewrite <- Harr in E. exists S'. split; [done|]. split; [done|]. split; [done|].
    intros Hrl. by apply mergeSort_rec_small.
  - rewrite mergeSort_rec_small by lia. exists [].
    replace n with 0%nat by lia. rewrite Nat.add_0_r. unfold cells. rewrite take_0.
    split; [by rewrite app_nil_l, take_drop|]. split; [done|]. split; [constructor|done].
Qed.

(** X24: for [left <= mid < right < n], so that both temporary arrays have
    at least one cell, [merge(arr, left, mid, right)] on an array whose cells
    [left .. mid] and [mid + 1 .. right] are each in order leaves the cells
    [left .. right] in order, holding the same jobs, and every other cell as
    it was. *)
Theorem c_merge_sorted_runs (arr : list Job) (left mid right : nat) :
  (left <= mid)%nat -> (mid < right)%nat -> (right < length arr)%nat ->
  StronglySorted before (cells arr left (mid - left + 1)) ->
  StronglySorted before (cells arr (mid + 1) (right - mid)) ->
  exists M,
    merge arr left mid right = take left arr ++ M ++ drop (right + 1) arr /\
    M ≡ₚ cells arr left (right - left + 1) /\
    StronglySorted before M.
Proof.
  intros Hlm Hmr Hr Hs1 Hs2.
  set (S1 := cells arr left (mid - left + 1)) in *.
  set (S2 := cells arr (mid + 1) (right - mid)) in *.
  assert (cells arr left (right - left + 1) = S1 ++ S2) as Hcells.
  { unfold S1, S2, cells.
    replace (mid + 1)%nat with (left + (mid - left + 1))%nat by lia.
    rewrite <- drop_drop, take_take_drop. f_equal. lia. }
  assert (arr = take left arr ++ S1 ++ S2 ++ drop (right + 1) arr) as Harr.
  { rewrite (assoc_L (++) S1), <- Hcells. unfold cells.
    rewrite (assoc_L (++)), take_take_drop.
    replace (left + (right - left + 1))%nat with (right + 1)%nat by lia.
    by rewrite take_drop. }
  exists (merged S1 S2). split.
  - rewrite Harr at 1. apply merge_spec.
    + rewrite length_take. lia.
    + unfold S1. rewrite cells_length; lia.
    + unfold S2. rewrite cells_length; lia.
    + done.
  - split; [by rewrite merged_Permutation, Hcells|by apply merged_sorted].
Qed.

(** ** The two [removeExpiredJobs] *)

Lemma removeExpiredJobs_loop_spec (n i : nat) (jobs : list Job) (today : Z)
    (pre junk post : list Job) :
  (i + n <= length jobs)%nat -> (n <= length junk)%nat ->
  removeExpiredJobs_loop n i (length pre) jobs today (pre ++ junk ++ post)
  = (length (pre ++ List.filter (fun j => deadline j >=? today) (cells jobs i n)),
     pre ++ List.filter (fun j => deadline j >=? today) (cells jobs i n)
       ++ drop (length (List.filter (fun j => deadline j >=? today) (cells jobs i n))) junk
       ++ post).
Proof.
  revert i pre junk. induction n as [|n IH]; intros i pre junk Hlen Hjunk.
  - unfold cells. rewrite take_0. simpl. by rewrite app_nil_r.
  - cbn [removeExpiredJobs_loop]. rewrite cells_S by lia. cbn [List.filter].
    destruct (deadline (jobs !!! i) >=? today).
    + destruct junk as [|y junk]; [simpl in Hjunk; lia|].
      cbn [app]. rewrite insert_middle by done.
      replace (pre ++ jobs !!! i :: junk ++ post)
        with ((pre ++ [jobs !!! i]) ++ junk ++ post) by (by rewrite <- (assoc_L (++))).
      replace (S (length pre)) with (length (pre ++ [jobs !!! i]))
        by (rewrite length_app; simpl; lia).
      rewrite IH; [|lia|simpl in Hjunk; lia].
      rewrite <- !(assoc_L (++)). done.
    + rewrite IH; [done|lia|lia].
Qed.

(** X25: the four-argument [removeExpiredJobs], for [0 <= n] not above the
    length of [jobs] and room for [n] jobs in [valid], returns the number of
    the first [n] jobs with [deadline >= today] and leaves exactly those
    jobs, in their order, at the front of [valid]; the cells of [valid]
    behind them are as before and [jobs] is only read. *)
Theorem c_removeExpiredJobs_valid (jobs : list Job) (n today : Z) (valid : list Job) :
  0 <= n <= Z.of_nat (length jobs) -> n <= Z.of_nat (length valid) ->
  removeExpiredJobs jobs n today valid
  = (Z.of_nat (length (List.filter (fun j => deadline j >=? today)
                         (take (Z.to_nat n) jobs))),
     List.filter (fun j => deadline j >=? today) (take (Z.to_nat n) jobs)
       ++ drop (length (List.filter (fun j => deadline j >=? today)
                          (take (Z.to_nat n) jobs))) valid).
Proof.
  intros Hn Hv. unfold removeExpiredJobs.
  pose proof (removeExpiredJobs_loop_spec (Z.to_nat n) 0 jobs today [] valid []) as H.
  cbn [app length] in H. rewrite !app_nil_r in H. rewrite H by lia.
  unfold cells. by rewrite drop_0.
Qed.

Lemma removeExpiredJobs_inplace_loop_spec (n : nat) (today : Z) (P G T : list Job) :
  (n <= length T)%nat ->
  removeExpiredJobs_inplace_loop n (length (P ++ G)) (length P) (P ++ G ++ T) today
  = (length (P ++ List.filter (fun j => deadline j >=? today) (take n T)),
     P ++ List.filter (fun j => deadline j >=? today) (take n T)
       ++ drop (length (List.filter (fun j => deadline j >=? today) (take n T)))
            (G ++ T)).
Proof.
  revert P G T. induction n as [|n IH]; intros P G T Hn.
  - rewrite take_0. simpl. by rewrite app_nil_r.
  - destruct T as [|x T]; [simpl in Hn; lia|].
    cbn [removeExpiredJobs_inplace_loop take List.filter].
    assert ((P ++ G ++ x :: T) !!! length (P ++ G) = x) as ->.
    { rewrite (assoc_L (++)). by apply lookup_total_middle. }
    destruct (deadline x >=? today).
    + destruct G as [|g G].
      * cbn [app]. rewrite app_nil_r. rewrite insert_middle by done.
        replace (P ++ x :: T) with ((P ++ [x]) ++ [] ++ T)
          by (by rewrite <- (assoc_L (++))).
        replace (S (length P)) with (length ((P ++ [x]) ++ []))
          by (rewrite app_nil_r, length_app; simpl; lia).
        rewrite app_nil_r at 2.
        replace (length (P ++ [x])) with (length ((P ++ [x]) ++ [])) at 1
          by (by rewrite app_nil_r).
        rewrite app_nil_r at 2. rewrite IH by (simpl in Hn; lia).
        rewrite <- !(assoc_L (++)). done.
      * cbn [app]. rewrite insert_middle by done.
        replace (P ++ x :: G ++ x :: T) with ((P ++ [x]) ++ (G ++ [x]) ++ T)
          by (by rewrite <- !(assoc_L (++))).
        replace (S (length (P ++ g :: G))) with (length ((P ++ [x]) ++ (G ++ [x])))
          by (rewrite !length_app; simpl; lia).
        replace (S (length P)) with (length (P ++ [x]))
          by (rewrite length_app; simpl; lia).
        rewrite IH by (simpl in Hn; lia).
        rewrite <- !(assoc_L (++)). done.
    + replace (P ++ G ++ x :: T) with (P ++ (G ++ [x]) ++ T)
        by (by rewrite <- !(assoc_L (++))).
      replace (S (length (P ++ G))) with (length (P ++ (G ++ [x])))
        by (rewrite !length_app; simpl; lia).
      rewrite IH by (simpl in Hn; lia).
      rewrite <- !(assoc_L (++)). done.
Qed.

(** X26: the three-argument [removeExpiredJobs], which shifts the valid jobs
    forward inside the array it reads, returns for [0 <= n] not above the
    length of [jobs] the number of the first [n] jobs with
    [deadline >= today] and leaves exactly those jobs, in their order, at the
    front of [jobs]: no job is overwritten before it has been read.  The
    cells behind them are as before. *)
Theorem c_removeExpiredJobs_inplace (jobs : list Job) (n today : Z) :
  0 <= n <= Z.of_nat (length jobs) ->
  removeExpiredJobs_inplace jobs n today
  = (Z.of_nat (length (List.filter (fun j => deadline j >=? today)
                         (take (Z.to_nat n) jobs))),
     List.filter (fun j => deadline j >=? today) (take (Z.to_nat n) jobs)
       ++ drop (length (List.filter (fun j => deadline j >=? today)
                          (take (Z.to_nat n) jobs))) jobs).
Proof.
  intros Hn. unfold removeExpiredJobs_inplace.
  pose proof (removeExpiredJobs_inplace_loop_spec (Z.to_nat n) today [] [] jobs) as H.
  cbn [app length] in H. by rewrite H by lia.
Qed.

(** ** [selectJobs] and [calculateTotalCompute] *)

Lemma selectJobs_loop_spec (fuel : nat) (jobs : list Job) (n N : Z) (m : nat)
    (pre junk post : list Job) :
  m = Z.to_nat (Z.min n N) ->
  (length pre <= m)%nat -> (m <= length jobs)%nat ->
  length junk = (m - length pre)%nat ->
  (m - length pre <= fuel)%nat ->
  selectJobs_loop fuel jobs n N (length pre) (length pre) (pre ++ junk ++ post)
  = (m, pre ++ cells jobs (length pre) (m - length pre) ++ post).
Proof.
  intros Hm. revert pre junk.
  induction fuel as [|fuel IH]; intros pre junk Hpre Hjobs Hjunk Hfuel.
  - assert (length pre = m) as Hpm by lia.
    replace (m - length pre)%nat with 0%nat in * by lia.
    destruct junk; [|done]. unfold cells. rewrite take_0. by rewrite Hpm.
  - cbn [selectJobs_loop].
    destruct (decide (length pre < m)%nat) as [Hlt|Hge].
    + destruct (Z.ltb_spec (Z.of_nat (length pre)) n); [|lia].
      destruct (Z.ltb_spec (Z.of_nat (length pre)) N); [|lia]. cbn [andb].
      destruct junk as [|y junk]; [simpl in Hjunk; lia|].
      cbn [app]. rewrite insert_middle by done.
      replace (pre ++ jobs !!! length pre :: junk ++ post)
        with ((pre ++ [jobs !!! length pre]) ++ junk ++ post)
        by (by rewrite <- (assoc_L (++))).
      replace (S (length pre)) with (length (pre ++ [jobs !!! length pre]))
        by (rewrite length_app; simpl; lia).
      rewrite IH;
        [|rewrite length_app; simpl; lia|done
         |rewrite length_app; simpl in *; lia|rewrite length_app; simpl; lia].
      rewrite length_app. cbn [length].
      replace (m - length pre)%nat with (S (m - (length pre + 1))) by lia.
      rewrite cells_S by lia. rewrite <- !(assoc_L (++)). cbn [app].
      by replace (length pre + 1)%nat with (S (length pre)) by lia.
    + assert (length pre = m) as Hpm by lia.
      replace (m - length pre)%nat with 0%nat in * by lia.
      destruct junk; [|done]. unfold cells. rewrite take_0.
      destruct (Z.ltb_spec (Z.of_nat (length pre)) n);
        destruct (Z.ltb_spec (Z.of_nat (length pre)) N); cbn [andb];
        try (by rewrite Hpm); lia.
Qed.

(** X27: [selectJobs(jobs, n, N, selected)], for [0 <= n] not above the
    length of [jobs] and enough room in [selected], returns
    [min(n, max(0, N))] and leaves that many jobs, the first ones of [jobs]
    in their order, at the front of [selected]; for [N <= 0] it returns 0 and
    writes nothing. *)
Theorem c_selectJobs_first (jobs : list Job) (n N : Z) (selected : list Job) :
  0 <= n <= Z.of_nat (length jobs) ->
  Z.min n N <= Z.of_nat (length selected) ->
  selectJobs jobs n N selected
  = (Z.min n (Z.max 0 N),
     take (Z.to_nat (Z.min n N)) jobs ++ drop (Z.to_nat (Z.min n N)) selected).
Proof.
  intros Hn Hroom. unfold selectJobs.
  set (m := Z.to_nat (Z.min n N)).
  pose proof (selectJobs_loop_spec (Z.to_nat n) jobs n N m [] (take m selected)
                (drop m selected) eq_refl) as H.
  cbn [app length] in H. rewrite take_drop in H.
  rewrite H; [|lia|lia|rewrite length_take; lia|lia].
  unfold cells. rewrite drop_0, Nat.sub_0_r. f_equal. lia.
Qed.

Lemma calculateTotalCompute_loop_Some (n i : nat) (selected : list Job) (total t : Z) :
  (i + n <= length selected)%nat ->
  calculateTotalCompute_loop n i selected total = Some t ->
  t = total + foldr (fun j acc => compute j + acc) 0 (cells selected i n).
Proof.
  revert i total. induction n as [|n IH]; intros i total Hlen E.
  - unfold cells. rewrite take_0. simpl in *. injection E as <-. lia.
  - cbn [calculateTotalCompute_loop] in E.
    destruct (in_int (total + compute (selected !!! i))); [|done].
    apply IH in E; [|lia]. rewrite cells_S by lia. simpl. lia.
Qed.

Lemma calculateTotalCompute_loop_bounded (n i : nat) (selected : list Job) (total c : Z) :
  (i + n <= length selected)%nat ->
  Forall (fun j => 0 <= compute j <= c) (cells selected i n) ->
  0 <= total -> total + Z.of_nat n * c < 2 ^ 31 ->
  calculateTotalCompute_loop n i selected total
  = Some (total + foldr (fun j acc => compute j + acc) 0 (cells selected i n)).
Proof.
  revert i total. induction n as [|n IH]; intros i total Hlen Hall H0 Hmax.
  - unfold cells. rewrite take_0. simpl. f_equal. lia.
  - cbn [calculateTotalCompute_loop]. rewrite cells_S in * by lia.
    apply Forall_cons in Hall as [Hx Hall].
    assert (in_int (total + compute (selected !!! i)) = true) as ->.
    { unfold in_int. apply andb_true_iff. split; [apply Z.leb_le|apply Z.ltb_lt]; nia. }
    rewrite IH; [|lia|done|lia|nia]. simpl. f_equal. lia.
Qed.

(** X28: [calculateTotalCompute(selected, count)] on the first [count] jobs
    of the array: whenever it returns a value, that value is the sum of their
    compute; and it does return that sum when each compute is between 0 and
    a bound [c] with [count * c] below 2^31, so that no partial sum leaves
    the range of [int]. *)
Theorem c_calculateTotalCompute_sum (selected : list Job) (count : Z) :
  0 <= count <= Z.of_nat (length selected) ->
  (forall t, calculateTotalCompute selected count = Some t ->
             t = foldr (fun j acc => compute j + acc) 0 (take (Z.to_nat count) selected)) /\
  (forall c, Forall (fun j => 0 <= compute j <= c) (take (Z.to_nat count) selected) ->
             count * c < 2 ^ 31 ->
             calculateTotalCompute selected count
             = Some (foldr (fun j acc => compute j + acc) 0
                       (take (Z.to_nat count) selected))).
Proof.
  intros Hc. unfold calculateTotalCompute. split.
  - intros t E. apply calculateTotalCompute_loop_Some in E; [|lia].
    unfold cells in E. rewrite drop_0 in E. lia.
  - intros c Hall Hmax.
    rewrite (calculateTotalCompute_loop_bounded _ _ _ _ c); [|lia| |lia|lia].
    + unfold cells. rewrite drop_0. f_equal.
    + unfold cells. by rewrite drop_0.
Qed.

(** ** Concrete runs *)

Example c_mergeSort_five :
  mergeSort [mk 1 5 9; mk 2 3 4; mk 3 1 4; mk 4 7 2; mk 5 2 9] 0 4
  = [mk 4 7 2; mk 3 1 4; mk 2 3 4; mk 5 2 9; mk 1 5 9].
Proof. vm_compute. reflexivity. Qed.

Lemma c_mergeSort_sorts_witness :
  0 <= 1 /\
  3 < Z.of_nat (length [mk 1 5 9; mk 2 3 4; mk 3 1 4; mk 4 7 2; mk 5 2 9]) /\
  3 < 2 ^ 30 /\
  exists S',
    mergeSort [mk 1 5 9; mk 2 3 4; mk 3 1 4; mk 4 7 2; mk 5 2 9] 1 3
    = [mk 1 5 9] ++ S' ++ [mk 5 2 9] /\
    StronglySorted before S'.
Proof.
  assert (0 <= 1) as H0 by lia.
  assert (3 < Z.of_nat (length [mk 1 5 9; mk 2 3 4; mk 3 1 4; mk 4 7 2; mk 5 2 9]))
    as H1 by (simpl; lia).
  assert (3 < 2 ^ 30) as H2 by lia.
  split; [exact H0|]. split; [exact H1|]. split; [exact H2|].
  destruct (c_mergeSort_sorts [mk 1 5 9; mk 2 3 4; mk 3 1 4; mk 4 7 2; mk 5 2 9] 1 3 H0 H1 H2)
    as (S' & E & _ & Hs & _).
  exists S'. split; [exact E|exact Hs].
Defined.

Lemma c_merge_sorted_runs_witness :
  (0 <= 1)%nat /\ (1 < 3)%nat /\
  (3 < length [mk 1 5 2; mk 2 3 6; mk 3 1 4; mk 4 7 9])%nat /\
  StronglySorted before (cells [mk 1 5 2; mk 2 3 6; mk 3 1 4; mk 4 7 9] 0 (1 - 0 + 1)) /\
  StronglySorted before (cells [mk 1 5 2; mk 2 3 6; mk 3 1 4; mk 4 7 9] (1 + 1) (3 - 1)) /\
  exists M,
    merge [mk 1 5 2; mk 2 3 6; mk 3 1 4; mk 4 7 9] 0 1 3
    = take 0 [mk 1 5 2; mk 2 3 6; mk 3 1 4; mk 4 7 9] ++ M
        ++ drop (3 + 1) [mk 1 5 2; mk 2 3 6; mk 3 1 4; mk 4 7 9] /\
    StronglySorted before M.
Proof.
  assert (0 <= 1)%nat as H01 by lia. assert (1 < 3)%nat as H13 by lia.
  assert (3 < length [mk 1 5 2; mk 2 3 6; mk 3 1 4; mk 4 7 9])%nat as H3
    by (simpl; lia).
  assert (StronglySorted before
            (cells [mk 1 5 2; mk 2 3 6; mk 3 1 4; mk 4 7 9] 0 (1 - 0 + 1))) as Hs1.
  { unfold cells, before. simpl. repeat constructor; simpl; lia. }
  assert (StronglySorted before
            (cells [mk 1 5 2; mk 2 3 6; mk 3 1 4; mk 4 7 9] (1 + 1) (3 - 1))) as Hs2.
  { unfold cells, before. simpl. repeat constructor; simpl; lia. }
  split; [exact H01|]. split; [exact H13|]. split; [exact H3|].
  split; [exact Hs1|]. split; [exact Hs2|].
  destruct (c_merge_sorted_runs _ 0 1 3 H01 H13 H3 Hs1 Hs2) as (M & E & _ & Hs).
  exists M. split; [exact E|exact Hs].
Defined.

Lemma c_removeExpiredJobs_valid_witness :
  0 <= 3 <= Z.of_nat (length [mk 1 5 9; mk 2 3 4; mk 3 1 6]) /\
  3 <= Z.of_nat (length (replicate 3 (mk 0 0 0))) /\
  removeExpiredJobs [mk 1 5 9; mk 2 3 4; mk 3 1 6] 3 5 (replicate 3 (mk 0 0 0))
  = (2, [mk 1 5 9; mk 3 1 6; mk 0 0 0]).
Proof.
  assert (0 <= 3 <= Z.of_nat (length [mk 1 5 9; mk 2 3 4; mk 3 1 6])) as Hn
    by (simpl; lia).
  assert (3 <= Z.of_nat (length (replicate 3 (mk 0 0 0)))) as Hv by (simpl; lia).
  split; [exact Hn|]. split; [exact Hv|].
  exact (c_removeExpiredJobs_valid _ 3 5 _ Hn Hv).
Defined.

Lemma c_removeExpiredJobs_inplace_witness :
  0 <= 3 <= Z.of_nat (length [mk 1 5 2; mk 2 3 4; mk 3 1 6]) /\
  removeExpiredJobs_inplace [mk 1 5 2; mk 2 3 4; mk 3 1 6] 3 4
  = (2, [mk 2 3 4; mk 3 1 6; mk 3 1 6]).
Proof.
  assert (0 <= 3 <= Z.of_nat (length [mk 1 5 2; mk 2 3 4; mk 3 1 6])) as Hn
    by (simpl; lia).
  split; [exact Hn|].
  exact (c_removeExpiredJobs_inplace _ 3 4 Hn).
Defined.

Lemma c_selectJobs_first_witness :
  0 <= 3 <= Z.of_nat (length [mk 1 5 9; mk 2 3 4; mk 3 1 6]) /\
  Z.min 3 2 <= Z.of_nat (length (replicate 3 (mk 0 0 0))) /\
  selectJobs [mk 1 5 9; mk 2 3 4; mk 3 1 6] 3 2 (replicate 3 (mk 0 0 0))
  = (2, [mk 1 5 9; mk 2 3 4; mk 0 0 0]).
Proof.
  assert (0 <= 3 <= Z.of_nat (length [mk 1 5 9; mk 2 3 4; mk 3 1 6])) as Hn
    by (simpl; lia).
  assert (Z.min 3 2 <= Z.of_nat (length (replicate 3 (mk 0 0 0)))) as Hroom
    by (simpl; lia).
  split; [exact Hn|]. split; [exact Hroom|].
  exact (c_selectJobs_first _ 3 2 _ Hn Hroom).
Defined.

Lemma c_calculateTotalCompute_sum_witness :
  0 <= 2 <= Z.of_nat (length [mk 1 5 9; mk 2 3 4; mk 3 1 6]) /\
  Forall (fun j => 0 <= compute j <= 20) (take (Z.to_nat 2) [mk 1 5 9; mk 2 3 4; mk 3 1 6]) /\
  2 * 20 < 2 ^ 31 /\
  calculateTotalCompute [mk 1 5 9; mk 2 3 4; mk 3 1 6] 2 = Some 8.
Proof.
  assert (0 <= 2 <= Z.of_nat (length [mk 1 5 9; mk 2 3 4; mk 3 1 6])) as Hc
    by (simpl; lia).
  assert (Forall (fun j => 0 <= compute j <= 20)
            (take (Z.to_nat 2) [mk 1 5 9; mk 2 3 4; mk 3 1 6])) as Hall.
  { simpl. repeat constructor; simpl; lia. }
  assert (2 * 20 < 2 ^ 31) as Hmax by lia.
  split; [exact Hc|]. split; [exact Hall|]. split; [exact Hmax|].
  exact (proj2 (c_calculateTotalCompute_sum _ 2 Hc) 20 Hall Hmax).
Defined.

End CPortFacts.
